(** * go-errmgt: structured errors, embedded shallowly

    The repository holds two generations of one small library:
    - the root package ([src/errmgt.go]): integer error kinds, [New], a
      three-argument [Wrap], [WithContext]/[GetContext], [IsType];
    - package [v1] ([src/v1/errmgt.go]): string error kinds with a code,
      fluent setters, [Is], and the free functions [IsType], [IsRetryable],
      [GetContext], [Wrap], [Wrapf].

    Go errors are pointers: [errors.New] and [fmt.Errorf] allocate, the
    fluent setters write through the receiver and hand the receiver back,
    and [errors.Is] compares pointers.  The embedding therefore keeps a
    store of error objects; an [error] interface value is nil, an address
    in that store, or the nil pointer of type [*ManagedError], which is
    not nil as an interface value. *)

From stdpp Require Import gmap strings list fin_maps pretty.
From Stdlib Require Import Ascii ZArith Lia.

(** Renderings are computed by [simpl] in the proofs below. *)
#[local] Arguments String.append : simpl nomatch.

(** ** Outcomes of a call *)

(** [Ok a]: the call returns [a].  [Panic]: the Go run time panics.
    [Stuck]: the model assigns no behaviour (an address outside the store,
    a receiver of another dynamic type, or a format directive outside the
    modelled part of [fmt]).  [Timeout]: a walk along the cause chain did
    not finish within the fuel it was given. *)
Inductive result (A : Type) : Type :=
| Ok (a : A)
| Panic (why : string)
| Stuck
| Timeout.
Arguments Ok {A} a.
Arguments Panic {A} why.
Arguments Stuck {A}.
Arguments Timeout {A}.

Definition result_bind {A B : Type} (f : A → result B) (r : result A) : result B :=
  match r with
  | Ok a => f a
  | Panic why => Panic why
  | Stuck => Stuck
  | Timeout => Timeout
  end.

#[global] Instance result_mbind : MBind result := @result_bind.
#[global] Instance result_mret : MRet result := @Ok.

(** ** The store *)

(** An address of an error object. *)
Abbreviation loc := nat (only parsing).

(** What a non-nil value of an interface type holds: the address of an
    object, or the nil pointer of type [*ManagedError] (the one pointer
    type of these packages that a client can name, so the one nil pointer
    a client can put into an [error]: [var e *ManagedError; var err error
    = e]). *)
Inductive pointer : Type :=
| addr (l : loc)
| nilManagedError.

Coercion addr : nat >-> pointer.

#[global] Instance pointer_eq_dec : EqDecision pointer.
Proof. solve_decision. Defined.

(** A value of Go's interface type [error]: nil ([None]) or a pointer.
    [Some nilManagedError] is not nil: it compares unequal to [nil]. *)
Abbreviation error := (option pointer) (only parsing).

(** The expected type decides what [Some] holds, so that an address can
    be written where an [error] is expected. *)
#[local] Arguments Some {A} & a.

(** The text of the run-time panic on a read or write through a nil
    pointer. *)
Definition nil_dereference : string :=
  "invalid memory address or nil pointer dereference".

(** A computation over a store of objects of type [O]. *)
Definition GoM (O A : Type) : Type := list O → result (A * list O).

Definition go_ret {O A : Type} (a : A) : GoM O A := λ h, Ok (a, h).

Definition go_bind {O A B : Type} (f : A → GoM O B) (m : GoM O A) : GoM O B :=
  λ h, match m h with
       | Ok (a, h') => f a h'
       | Panic why => Panic why
       | Stuck => Stuck
       | Timeout => Timeout
       end.

#[global] Instance go_mbind {O : Type} : MBind (GoM O) := @go_bind O.
#[global] Instance go_mret {O : Type} : MRet (GoM O) := @go_ret O.

(** [&T{...}]: a fresh object at the next free address. *)
Definition alloc {O : Type} (o : O) : GoM O loc :=
  λ h, Ok (length h, h ++ [o]).

(** A read of the store, as a computation that leaves it unchanged. *)
Definition reading {O A : Type} (f : list O → result A) : GoM O A :=
  λ h, match f h with
       | Ok a => Ok (a, h)
       | Panic why => Panic why
       | Stuck => Stuck
       | Timeout => Timeout
       end.

(** Chains of causes.  [unwrap o] is what the [Unwrap() error] method of
    the object [o] returns (nil for a type without that method). *)
Section Store.
Context {O : Type} (unwrap : O → error).

(** A caller can only pass an error value it holds: nil or an address
    of the store.  (The call sequences and the ordered stores below are
    those of clients that build no nil [*ManagedError]; [holds] admits
    that value too.) *)
Definition in_store (h : list O) (err : error) : bool :=
  match err with
  | None => true
  | Some (addr l) => bool_decide (l < length h)
  | Some nilManagedError => false
  end.

(** Every error value a client can hold: nil, an address of the store, or
    the nil [*ManagedError]. *)
Definition holds (h : list O) (err : error) : bool :=
  match err with
  | None => true
  | Some (addr l) => bool_decide (l < length h)
  | Some nilManagedError => true
  end.

(** [chain h err ls]: [ls] lists the objects visited from [err] by
    repeated [Unwrap] until nil. *)
Inductive chain (h : list O) : error → list loc → Prop :=
| chain_nil : chain h None []
| chain_cons (l : loc) (o : O) (ls : list loc) :
    h !! l = Some o → chain h (unwrap o) ls → chain h (Some (addr l)) (l :: ls).

(** [reaches h err ls last]: the same walk, with what it ends in: [ls]
    lists the objects visited from [err], and [last] is nil or the nil
    [*ManagedError] the walk arrives at. *)
Inductive reaches (h : list O) : error → list loc → error → Prop :=
| reaches_nil : reaches h None [] None
| reaches_nil_pointer :
    reaches h (Some nilManagedError) [] (Some nilManagedError)
| reaches_cons (l : loc) (o : O) (ls : list loc) (last : error) :
    h !! l = Some o → reaches h (unwrap o) ls last →
    reaches h (Some (addr l)) (l :: ls) last.

(** Objects only refer to objects allocated before them, and none holds
    a nil pointer.  Constructors establish this (a cause exists before the
    error that wraps it) and no setter writes a cause, so chains built
    through the API are finite. *)
Definition heap_wf (h : list O) : Prop :=
  ∀ (l : loc) (o : O) (p : pointer),
    h !! l = Some o → unwrap o = Some p → ∃ c : loc, p = addr c ∧ c < l.

(** The same order, for stores in which an object may also hold the nil
    [*ManagedError]. *)
Definition heap_ordered (h : list O) : Prop :=
  ∀ (l : loc) (o : O) (c : loc),
    h !! l = Some o → unwrap o = Some (addr c) → c < l.

(** The same condition as a check, for concrete stores. *)
Fixpoint check_wf_from (n : nat) (h : list O) : bool :=
  match h with
  | [] => true
  | o :: h' =>
      match unwrap o with
      | None => true
      | Some (addr c) => bool_decide (c < n)
      | Some nilManagedError => false
      end && check_wf_from (S n) h'
  end.

Definition check_wf (h : list O) : bool := check_wf_from 0 h.

(** The walk itself, for concrete stores: the chain of [err] when it
    ends within [fuel] steps. *)
Fixpoint walk (fuel : nat) (h : list O) (err : error) : option (list loc) :=
  match err with
  | None => Some []
  | Some (addr l) =>
      match fuel with
      | 0 => None
      | S fuel' =>
          o ← h !! l; ls ← walk fuel' h (unwrap o); Some (l :: ls)
      end
  | Some nilManagedError => None
  end.

End Store.

(** Substring containment, for claims of the form "the rendering contains". *)
Definition contains (s sub : string) : Prop :=
  ∃ pre post : string, s = pre +:+ sub +:+ post.

(** ** The part of package [fmt] the library relies on *)

Module Fmt.

(** Values of [interface{}] that the callers of this library pass. *)
Inductive any : Type :=
| AnyNil
| AnyString (s : string)
| AnyInt (z : Z)
| AnyBool (b : bool).

#[global] Instance any_eq_dec : EqDecision any.
Proof. solve_decision. Defined.

(** [reflect.TypeOf(arg).String()]. *)
Definition typeName (a : any) : string :=
  match a with
  | AnyNil => "<nil>"
  | AnyString _ => "string"
  | AnyInt _ => "int"
  | AnyBool _ => "bool"
  end.

(** [%v]: the default format of a value. *)
Definition fmtV (a : any) : string :=
  match a with
  | AnyNil => "<nil>"
  | AnyString s => s
  | AnyInt z => pretty z
  | AnyBool b => if b then "true" else "false"
  end.

(** The verbs of the modelled part: [%s], [%d], [%v], [%t]. *)
Definition simpleVerb (c : ascii) : bool :=
  bool_decide (c = "s"%char) || bool_decide (c = "d"%char)
  || bool_decide (c = "v"%char) || bool_decide (c = "t"%char).

(** [badVerb]: [%!verb(type=value)], or [%!verb(<nil>)] for a nil operand. *)
Definition badVerb (verb : ascii) (a : any) : string :=
  match a with
  | AnyNil => "%!" +:+ String verb "(<nil>)"
  | _ => "%!" +:+ String verb ("(" +:+ typeName a +:+ "=" +:+ fmtV a +:+ ")")
  end.

(** [printArg] for a simple verb. *)
Definition printArg (a : any) (verb : ascii) : string :=
  match a with
  | AnyNil =>
      if bool_decide (verb = "v"%char) then "<nil>" else badVerb verb a
  | AnyString s =>
      if bool_decide (verb = "v"%char) || bool_decide (verb = "s"%char)
      then s else badVerb verb a
  | AnyInt z =>
      if bool_decide (verb = "v"%char) || bool_decide (verb = "d"%char)
      then pretty z else badVerb verb a
  | AnyBool b =>
      if bool_decide (verb = "v"%char) || bool_decide (verb = "t"%char)
      then fmtV a else badVerb verb a
  end.

(** The tail [%!(EXTRA type=value, ...)] for operands no verb consumed. *)
Fixpoint extraArgs (a : list any) : string :=
  match a with
  | [] => ""
  | [x] => match x with
           | AnyNil => "<nil>"
           | _ => typeName x +:+ "=" +:+ fmtV x
           end
  | x :: rest =>
      match x with
      | AnyNil => "<nil>"
      | _ => typeName x +:+ "=" +:+ fmtV x
      end +:+ ", " +:+ extraArgs rest
  end.

Definition extra (a : list any) : string :=
  match a with
  | [] => ""
  | _ => "%!(EXTRA " +:+ extraArgs a +:+ ")"
  end.

(** [doPrintf]: literal text is copied, [%%] prints a percent sign and
    consumes no operand, a simple verb consumes the next operand or
    reports [(MISSING)], a trailing [%] reports [(NOVERB)], and left-over
    operands are reported as [EXTRA].  Flags, widths, precisions, explicit
    argument indexes and the other verbs are outside the modelled part:
    the result is [None]. *)
Fixpoint Sprintf (format : string) (a : list any) : option string :=
  match format with
  | EmptyString => Some (extra a)
  | String c rest =>
      if bool_decide (c = "%"%char) then
        match rest with
        | EmptyString => Some ("%!(NOVERB)" +:+ extra a)
        | String verb rest' =>
            if bool_decide (verb = "%"%char) then
              String "%"%char <$> Sprintf rest' a
            else if simpleVerb verb then
              match a with
              | [] => String.append ("%!" +:+ String verb "(MISSING)")
                        <$> Sprintf rest' []
              | x :: a' => String.append (printArg x verb) <$> Sprintf rest' a'
              end
            else None
        end
      else String c <$> Sprintf rest a
  end.

(** A format with one [%v] per operand: each operand comes with the
    literal text that precedes its verb, and [last] closes the format. *)
Fixpoint template (pieces : list (string * any)) (last : string) : string :=
  match pieces with
  | [] => last
  | (lit, _) :: rest => lit +:+ "%v" +:+ template rest last
  end.

(** The same text with each operand in the place of its verb. *)
Fixpoint filled (pieces : list (string * any)) (last : string) : string :=
  match pieces with
  | [] => last
  | (lit, x) :: rest => lit +:+ fmtV x +:+ filled rest last
  end.

(** Text without a percent sign. *)
Fixpoint plain (s : string) : bool :=
  match s with
  | EmptyString => true
  | String c s' => negb (bool_decide (c = "%"%char)) && plain s'
  end.

End Fmt.

Import Fmt.

(** ** Package [v1]: the richer variant ([src/v1/errmgt.go]) *)

Module V1.

(** [type ErrorType string] and its four constants. *)
Definition ErrorType := string.
Definition ValidationError : ErrorType := "validation".
Definition BusinessError : ErrorType := "business".
Definition SystemError : ErrorType := "system".
Definition ExternalError : ErrorType := "external".

(** [type ManagedError struct].  A Go map is nil or a table: [Context]
    is [None] for the nil map.  [Details] is a plain string; the empty
    string is what the code treats as "no details". *)
Record ManagedError : Type := mkManagedError {
  Code : string;
  Message : string;
  Details : string;
  Cause : error;
  Context : option (gmap string string);
  Type_ : ErrorType;
  StatusCode : Z;
  Retryable : bool
}.

(** The objects an [error] value can point to: [*errors.errorString]
    (from [errors.New] and from [fmt.Errorf] without a wrapped operand),
    [*fmt.wrapError] (from [fmt.Errorf] with [%w]) and [*ManagedError]. *)
Inductive obj : Type :=
| errorString (s : string)
| wrapError (msg : string) (err : error)
| Managed (m : ManagedError).

Abbreviation heap := (list obj) (only parsing).

(** [func (e *ManagedError) Error() string] on the fields. *)
Definition ManagedError_Error (e : ManagedError) : string :=
  if bool_decide (Details e ≠ "") then
    "[" +:+ Type_ e +:+ ":" +:+ Code e +:+ "] " +:+ Message e +:+ ": " +:+ Details e
  else
    "[" +:+ Type_ e +:+ ":" +:+ Code e +:+ "] " +:+ Message e.

(** [err.Error()], dispatched on the dynamic type of the object. *)
Definition Error (h : heap) (err : loc) : result string :=
  match h !! err with
  | None => Stuck
  | Some (errorString s) => Ok s
  | Some (wrapError msg _) => Ok msg
  | Some (Managed e) => Ok (ManagedError_Error e)
  end.

(** The [Unwrap() error] method of an object, nil where the type has
    none: [func (e *ManagedError) Unwrap() error] returns [e.Cause]. *)
Definition obj_Unwrap (o : obj) : error :=
  match o with
  | errorString _ => None
  | wrapError _ err => err
  | Managed e => Cause e
  end.

(** [func (e *ManagedError) Unwrap() error] through the pointer. *)
Definition Unwrap (h : heap) (e : loc) : result error :=
  match h !! e with
  | Some (Managed m) => Ok (Cause m)
  | _ => Stuck
  end.

(** [errors.As(err, &managedErr)] with [managedErr] of type
    [*ManagedError]: the first value of that type on the chain of [err],
    which is what the call stores in [managedErr], or [None] when the
    call returns false.  The test is on the dynamic type, so a nil
    [*ManagedError] is found like any other and stored as it is. *)
Fixpoint errors_As (fuel : nat) (h : heap) (err : error)
    : result (option pointer) :=
  match err with
  | None => Ok None
  | Some nilManagedError => Ok (Some nilManagedError)
  | Some (addr l) =>
      match fuel with
      | O => Timeout
      | S fuel' =>
          match h !! l with
          | None => Stuck
          | Some (Managed _) => Ok (Some (addr l))
          | Some o => errors_As fuel' h (obj_Unwrap o)
          end
      end
  end.

(** The body of [func (e *ManagedError) Is(target error) bool], with the
    call of [errors.Is] it makes on the cause left open. *)
Definition ManagedError_Is_body (Is_rec : error → error → result bool)
    (fuel : nat) (h : heap) (e : ManagedError) (target : error) : result bool :=
  match target with
  | None => Ok false
  | Some _ =>
      found ← errors_As fuel h target;
      match found with
      | Some (addr t) =>
          match h !! t with
          | Some (Managed managedErr) =>
              Ok (bool_decide (Type_ e = Type_ managedErr)
                  && bool_decide (Code e = Code managedErr))
          | _ => Stuck
          end
      | Some nilManagedError => Panic nil_dereference
      | None => Is_rec (Cause e) target
      end
  end.

(** The same method called on a nil receiver: the nil test of the target
    needs no field, but after [errors.As] either [e.Type] or [e.Cause] is
    read through the nil pointer. *)
Definition ManagedError_Is_nil_receiver (fuel : nat) (h : heap) (target : error)
    : result bool :=
  match target with
  | None => Ok false
  | Some _ => _ ← errors_As fuel h target; Panic nil_dereference
  end.

(** [errors.Is(err, target)]: at each object of the chain, pointer
    equality with the target, then the object's own [Is] method (only
    [*ManagedError] has one), then [Unwrap]. *)
Fixpoint errors_Is (fuel : nat) (h : heap) (err target : error) : result bool :=
  match fuel with
  | O => Timeout
  | S fuel' =>
      match err, target with
      | Some p, Some t =>
          if bool_decide (p = t) then Ok true
          else
            match p with
            | addr l =>
                match h !! l with
                | None => Stuck
                | Some o =>
                    viaMethod ← match o with
                                | Managed e =>
                                    ManagedError_Is_body (errors_Is fuel' h)
                                      fuel' h e target
                                | _ => Ok false
                                end;
                    if viaMethod : bool then Ok true
                    else errors_Is fuel' h (obj_Unwrap o) target
                end
            | nilManagedError =>
                viaMethod ← ManagedError_Is_nil_receiver fuel' h target;
                if viaMethod : bool then Ok true
                else Panic nil_dereference
            end
      | _, _ => Ok (bool_decide (err = target))
      end
  end.

(** [e.Is(target)] through the pointer [e]. *)
Definition ManagedError_Is (fuel : nat) (h : heap) (e : loc) (target : error)
    : result bool :=
  match h !! e with
  | Some (Managed m) => ManagedError_Is_body (errors_Is fuel h) fuel h m target
  | _ => Stuck
  end.

(** [func NewError(errType ErrorType, code, message string) *ManagedError].
    The fields the literal leaves out hold their zero values. *)
Definition NewError (errType : ErrorType) (code message : string) : GoM obj loc :=
  alloc (Managed {| Code := code; Message := message; Details := "";
                    Cause := None; Context := Some ∅; Type_ := errType;
                    StatusCode := 0; Retryable := false |}).

(** [func NewErrorWithCause(errType, code, message, cause) *ManagedError]. *)
Definition NewErrorWithCause (errType : ErrorType) (code message : string)
    (cause : error) : GoM obj loc :=
  alloc (Managed {| Code := code; Message := message; Details := "";
                    Cause := cause; Context := Some ∅; Type_ := errType;
                    StatusCode := 0; Retryable := false |}).

(** A write through a [*ManagedError] receiver; the receiver is returned. *)
Definition through (e : loc) (f : ManagedError → ManagedError) : GoM obj loc :=
  λ h, match h !! e with
       | Some (Managed m) => Ok (e, <[e := Managed (f m)]> h)
       | _ => Stuck
       end.

Definition set_Details (details : string) (m : ManagedError) : ManagedError :=
  {| Code := Code m; Message := Message m; Details := details;
     Cause := Cause m; Context := Context m; Type_ := Type_ m;
     StatusCode := StatusCode m; Retryable := Retryable m |}.

Definition set_Context (c : option (gmap string string)) (m : ManagedError)
    : ManagedError :=
  {| Code := Code m; Message := Message m; Details := Details m;
     Cause := Cause m; Context := c; Type_ := Type_ m;
     StatusCode := StatusCode m; Retryable := Retryable m |}.

Definition set_Retryable (retryable : bool) (m : ManagedError) : ManagedError :=
  {| Code := Code m; Message := Message m; Details := Details m;
     Cause := Cause m; Context := Context m; Type_ := Type_ m;
     StatusCode := StatusCode m; Retryable := retryable |}.

Definition set_StatusCode (code : Z) (m : ManagedError) : ManagedError :=
  {| Code := Code m; Message := Message m; Details := Details m;
     Cause := Cause m; Context := Context m; Type_ := Type_ m;
     StatusCode := code; Retryable := Retryable m |}.

(** [func (e *ManagedError) WithDetails(details string) *ManagedError]. *)
Definition WithDetails (e : loc) (details : string) : GoM obj loc :=
  through e (set_Details details).

(** [func (e *ManagedError) WithContext(key, value string) *ManagedError]:
    a nil map is replaced by a fresh one before the store. *)
Definition WithContext (e : loc) (key value : string) : GoM obj loc :=
  through e (λ m,
    let ctx := match Context m with
               | None => ∅
               | Some c => c
               end in
    set_Context (Some (<[key := value]> ctx)) m).

(** [func (e *ManagedError) WithRetryable(retryable bool) *ManagedError]. *)
Definition WithRetryable (e : loc) (retryable : bool) : GoM obj loc :=
  through e (set_Retryable retryable).

(** [func (e *ManagedError) WithStatusCode(code int) *ManagedError]. *)
Definition WithStatusCode (e : loc) (code : Z) : GoM obj loc :=
  through e (set_StatusCode code).

(** The object [errors.As] found, read through the pointer it stored:
    [managedErr.field] panics when that pointer is nil. *)
Definition found_field {A : Type} (h : heap) (found : option pointer)
    (field : ManagedError → A) (otherwise : A) : result A :=
  match found with
  | None => Ok otherwise
  | Some (addr l) =>
      match h !! l with
      | Some (Managed managedErr) => Ok (field managedErr)
      | _ => Stuck
      end
  | Some nilManagedError => Panic nil_dereference
  end.

(** [func IsType(err error, errType ErrorType) bool]. *)
Definition IsType (fuel : nat) (h : heap) (err : error) (errType : ErrorType)
    : result bool :=
  found ← errors_As fuel h err;
  found_field h found (λ m, bool_decide (Type_ m = errType)) false.

(** [func IsRetryable(err error) bool]. *)
Definition IsRetryable (fuel : nat) (h : heap) (err : error) : result bool :=
  found ← errors_As fuel h err;
  found_field h found Retryable false.

(** [func GetContext(err error) map[string]string]; [None] is nil. *)
Definition GetContext (fuel : nat) (h : heap) (err : error)
    : result (option (gmap string string)) :=
  found ← errors_As fuel h err;
  found_field h found Context None.

(** [errors.New(text)]. *)
Definition errors_New (text : string) : GoM obj error :=
  l ← alloc (errorString text); mret (Some (addr l)).

(** [fmt.Errorf("%s: %w", message, err)].  With a nil operand [%w] is a
    bad verb: its text is [%!w(<nil>)] and nothing is wrapped.  The result
    is kept as a plain [*errors.errorString]; a [*fmt.wrapError] around nil,
    which later Go releases build here, has the same text and the same nil
    [Unwrap].  Otherwise the text of [err] is taken now, by [err.Error()],
    and stored: a later write to [err] does not change it.  For the nil
    [*ManagedError] that call panics inside [fmt], which recovers and
    prints [<nil>] for a nil pointer; the operand is wrapped all the
    same. *)
Definition Errorf_s_w (message : string) (err : error) : GoM obj error :=
  match err with
  | None => errors_New (message +:+ ": " +:+ "%!w(<nil>)")
  | Some (addr e) =>
      text ← reading (λ h, Error h e);
      l ← alloc (wrapError (message +:+ ": " +:+ text) err);
      mret (Some (addr l))
  | Some nilManagedError =>
      l ← alloc (wrapError (message +:+ ": " +:+ "<nil>") err);
      mret (Some (addr l))
  end.

(** [func Wrap(err error, message string) error]. *)
Definition Wrap (err : error) (message : string) : GoM obj error :=
  Errorf_s_w message err.

(** [func Wrapf(err error, format string, args ...interface{}) error]. *)
Definition Wrapf (err : error) (format : string) (args : list any)
    : GoM obj error :=
  match Sprintf format args with
  | None => λ _, Stuck
  | Some message => Errorf_s_w message err
  end.

(** The address of the first [*ManagedError] among the objects at [ls]. *)
Fixpoint find_managed (h : heap) (ls : list loc) : option loc :=
  match ls with
  | [] => None
  | l :: ls' =>
      match h !! l with
      | Some (Managed _) => Some l
      | _ => find_managed h ls'
      end
  end.

(** The first [*ManagedError] among the objects at [ls]. *)
Fixpoint first_managed (h : heap) (ls : list loc) : option ManagedError :=
  match ls with
  | [] => None
  | l :: ls' =>
      match h !! l with
      | Some (Managed m) => Some m
      | _ => first_managed h ls'
      end
  end.

(** Every [*ManagedError] of the store has a non-nil context map. *)
Definition context_initialised (h : heap) : Prop :=
  ∀ (l : loc) (m : ManagedError), h !! l = Some (Managed m) → is_Some (Context m).

(** The calls a client can make that change the store. *)
Inductive call : Type :=
| CallErrorsNew (text : string)
| CallNewError (errType : ErrorType) (code message : string)
| CallNewErrorWithCause (errType : ErrorType) (code message : string) (cause : error)
| CallWithDetails (e : loc) (details : string)
| CallWithContext (e : loc) (key value : string)
| CallWithRetryable (e : loc) (retryable : bool)
| CallWithStatusCode (e : loc) (code : Z)
| CallWrap (err : error) (message : string)
| CallWrapf (err : error) (format : string) (args : list any).

(** One call; an error argument must be nil or an object of the store:
    the call language describes clients that build no nil
    [*ManagedError]. *)
Definition exec (c : call) : GoM obj error :=
  match c with
  | CallErrorsNew text => errors_New text
  | CallNewError errType code message =>
      e ← NewError errType code message; mret (Some (addr e))
  | CallNewErrorWithCause errType code message cause =>
      λ h, if in_store h cause
           then (e ← NewErrorWithCause errType code message cause; mret (Some (addr e))) h
           else Stuck
  | CallWithDetails e details => e' ← WithDetails e details; mret (Some (addr e'))
  | CallWithContext e key value => e' ← WithContext e key value; mret (Some (addr e'))
  | CallWithRetryable e retryable => e' ← WithRetryable e retryable; mret (Some (addr e'))
  | CallWithStatusCode e code => e' ← WithStatusCode e code; mret (Some (addr e'))
  | CallWrap err message =>
      λ h, if in_store h err then Wrap err message h else Stuck
  | CallWrapf err format args =>
      λ h, if in_store h err then Wrapf err format args h else Stuck
  end.

(** A sequence of calls, in order. *)
Fixpoint run (cs : list call) : GoM obj unit :=
  match cs with
  | [] => mret ()
  | c :: cs' => _ ← exec c; run cs'
  end.

(** The fluent setters, as data: "any sequence of fluent mutations". *)
Inductive mutation : Type :=
| SetDetails (details : string)
| SetContext (key value : string)
| SetRetryable (retryable : bool)
| SetStatusCode (code : Z).

Definition mutate (e : loc) (mu : mutation) : GoM obj loc :=
  match mu with
  | SetDetails details => WithDetails e details
  | SetContext key value => WithContext e key value
  | SetRetryable retryable => WithRetryable e retryable
  | SetStatusCode code => WithStatusCode e code
  end.

(** [e.With...(..).With...(..)]: each setter is applied to what the
    previous one returned. *)
Fixpoint fluent (e : loc) (mus : list mutation) : GoM obj loc :=
  match mus with
  | [] => mret e
  | mu :: mus' => e' ← mutate e mu; fluent e' mus'
  end.

End V1.

(** ** The root package: the simpler variant ([src/errmgt.go]) *)

Module Root.

(** [type ErrorType int] with the constants numbered by [iota].  Any
    integer converts to an [ErrorType]; the value is kept as a [Z]. *)
Definition ErrorType := Z.
Definition ValidationError : ErrorType := 0%Z.
Definition NotFoundError : ErrorType := 1%Z.
Definition PermissionError : ErrorType := 2%Z.
Definition InternalError : ErrorType := 3%Z.
Definition ExternalError : ErrorType := 4%Z.

(** [func (et ErrorType) String() string]. *)
Definition ErrorType_String (et : ErrorType) : string :=
  if bool_decide (et = ValidationError) then "ValidationError"
  else if bool_decide (et = NotFoundError) then "NotFoundError"
  else if bool_decide (et = PermissionError) then "PermissionError"
  else if bool_decide (et = InternalError) then "InternalError"
  else if bool_decide (et = ExternalError) then "ExternalError"
  else "UnknownError".

(** [type ManagedError struct]; the context holds [interface{}] values. *)
Record ManagedError : Type := mkManagedError {
  Type_ : ErrorType;
  Message : string;
  Cause : error;
  Context : option (gmap string any)
}.

Inductive obj : Type :=
| errorString (s : string)
| wrapError (msg : string) (err : error)
| Managed (m : ManagedError).

Abbreviation heap := (list obj) (only parsing).

Definition obj_Unwrap (o : obj) : error :=
  match o with
  | errorString _ => None
  | wrapError _ err => err
  | Managed me => Cause me
  end.

(** [err.Error()].  For a [*ManagedError] this is
    [func (me *ManagedError) Error() string]: [%s] prints
    [me.Type.String()] and [me.Message], and [%v] prints the cause by
    calling its [Error] method, so the rendering follows the chain.  A
    cause that is the nil [*ManagedError] is not nil; its [Error] method
    panics inside [fmt], which recovers and prints [<nil>]. *)
Fixpoint Error (fuel : nat) (h : heap) (err : loc) : result string :=
  match fuel with
  | O => Timeout
  | S fuel' =>
      match h !! err with
      | None => Stuck
      | Some (errorString s) => Ok s
      | Some (wrapError msg _) => Ok msg
      | Some (Managed me) =>
          match Cause me with
          | Some (addr cause) =>
              text ← Error fuel' h cause;
              Ok ("[" +:+ ErrorType_String (Type_ me) +:+ "] " +:+ Message me
                  +:+ ": " +:+ text)
          | Some nilManagedError =>
              Ok ("[" +:+ ErrorType_String (Type_ me) +:+ "] " +:+ Message me
                  +:+ ": " +:+ "<nil>")
          | None =>
              Ok ("[" +:+ ErrorType_String (Type_ me) +:+ "] " +:+ Message me)
          end
      end
  end.

(** [func (me *ManagedError) Unwrap() error]. *)
Definition Unwrap (h : heap) (me : loc) : result error :=
  match h !! me with
  | Some (Managed m) => Ok (Cause m)
  | _ => Stuck
  end.

(** [func New(errorType ErrorType, message string) *ManagedError]. *)
Definition New (errorType : ErrorType) (message : string) : GoM obj loc :=
  alloc (Managed {| Type_ := errorType; Message := message; Cause := None;
                    Context := Some ∅ |}).

(** [func Wrap(err error, errorType ErrorType, message string) *ManagedError]. *)
Definition Wrap (err : error) (errorType : ErrorType) (message : string)
    : GoM obj loc :=
  alloc (Managed {| Type_ := errorType; Message := message; Cause := err;
                    Context := Some ∅ |}).

(** [func (me *ManagedError) WithContext(key string, value interface{})]:
    the store [me.Context[key] = value] has no nil check, and Go panics
    on an assignment to an entry of a nil map. *)
Definition WithContext (me : loc) (key : string) (value : any) : GoM obj loc :=
  λ h, match h !! me with
       | Some (Managed m) =>
           match Context m with
           | None => Panic "assignment to entry in nil map"
           | Some c =>
               Ok (me, <[me := Managed {| Type_ := Type_ m; Message := Message m;
                                          Cause := Cause m;
                                          Context := Some (<[key := value]> c) |}]> h)
           end
       | _ => Stuck
       end.

(** [func (me *ManagedError) GetContext(key string) (interface{}, bool)]:
    a lookup in a nil map finds nothing, like one in an empty map. *)
Definition GetContext (h : heap) (me : loc) (key : string) : result (any * bool) :=
  match h !! me with
  | Some (Managed m) =>
      match Context m with
      | None => Ok (AnyNil, false)
      | Some c =>
          match c !! key with
          | Some value => Ok (value, true)
          | None => Ok (AnyNil, false)
          end
      end
  | _ => Stuck
  end.

(** [func (me *ManagedError) IsType(errorType ErrorType) bool]. *)
Definition IsType (h : heap) (me : loc) (errorType : ErrorType) : result bool :=
  match h !! me with
  | Some (Managed m) => Ok (bool_decide (Type_ m = errorType))
  | _ => Stuck
  end.

(** [errors.New(text)]. *)
Definition errors_New (text : string) : GoM obj error :=
  l ← alloc (errorString text); mret (Some (addr l)).

Definition context_initialised (h : heap) : Prop :=
  ∀ (l : loc) (m : ManagedError), h !! l = Some (Managed m) → is_Some (Context m).

(** The calls a client can make that change the store. *)
Inductive call : Type :=
| CallErrorsNew (text : string)
| CallNew (errorType : ErrorType) (message : string)
| CallWrap (err : error) (errorType : ErrorType) (message : string)
| CallWithContext (me : loc) (key : string) (value : any).

Definition exec (c : call) : GoM obj error :=
  match c with
  | CallErrorsNew text => errors_New text
  | CallNew errorType message => e ← New errorType message; mret (Some (addr e))
  | CallWrap err errorType message =>
      λ h, if in_store h err
           then (e ← Wrap err errorType message; mret (Some (addr e))) h
           else Stuck
  | CallWithContext me key value => e ← WithContext me key value; mret (Some (addr e))
  end.

Fixpoint run (cs : list call) : GoM obj unit :=
  match cs with
  | [] => mret ()
  | c :: cs' => _ ← exec c; run cs'
  end.

(** [me.WithContext(k1, v1).WithContext(k2, v2)...]. *)
Fixpoint fluent (me : loc) (kvs : list (string * any)) : GoM obj loc :=
  match kvs with
  | [] => mret me
  | (key, value) :: kvs' => me' ← WithContext me key value; fluent me' kvs'
  end.

End Root.

(** ** Notions used by the properties *)

(** What the constructors establish and every call preserves. *)
Definition v1_inv (h : V1.heap) : Prop :=
  heap_wf V1.obj_Unwrap h ∧ V1.context_initialised h.

Definition root_inv (h : Root.heap) : Prop :=
  heap_wf Root.obj_Unwrap h ∧ Root.context_initialised h.

(** A constructor call [ctor] returns an error with an empty, non-nil
    context, and every fluent chain on it succeeds and keeps the context
    non-nil. *)
Definition v1_initialises (ctor : GoM V1.obj loc) : Prop :=
  ∀ h : V1.heap, ∃ e h0 m0,
    ctor h = Ok (e, h0) ∧ h0 !! e = Some (V1.Managed m0)
    ∧ V1.Context m0 = Some ∅
    ∧ ∀ mus, ∃ h' m, V1.fluent e mus h0 = Ok (e, h')
                     ∧ h' !! e = Some (V1.Managed m) ∧ is_Some (V1.Context m).

Definition root_initialises (ctor : GoM Root.obj loc) : Prop :=
  ∀ h : Root.heap, ∃ e h0 m0,
    ctor h = Ok (e, h0) ∧ h0 !! e = Some (Root.Managed m0)
    ∧ Root.Context m0 = Some ∅
    ∧ ∀ kvs, ∃ h' m, Root.fluent e kvs h0 = Ok (e, h')
                     ∧ h' !! e = Some (Root.Managed m) ∧ is_Some (Root.Context m).

(** The result of a program started in the empty store. *)
Definition evaluate {O A : Type} (m : GoM O A) : result A :=
  match m [] with
  | Ok (a, _) => Ok a
  | Panic why => Panic why
  | Stuck => Stuck
  | Timeout => Timeout
  end.

(** ** Sample stores *)

(** A store of package [v1], as the calls of the examples build it:
    address 0 an opaque error, 1 a managed error caused by it, 2 a wrapper
    around 1, 3 another opaque error, 4 a managed error without cause. *)
Definition v1_sample_db : V1.ManagedError :=
  {| V1.Code := "db_connection_failed";
     V1.Message := "Failed to connect to database"; V1.Details := "";
     V1.Cause := Some 0; V1.Context := Some (<["database" := "users_db"]> ∅);
     V1.Type_ := V1.SystemError; V1.StatusCode := 0; V1.Retryable := true |}.

Definition v1_sample_email : V1.ManagedError :=
  {| V1.Code := "invalid_email"; V1.Message := "Invalid email format";
     V1.Details := "Must contain @ symbol"; V1.Cause := None;
     V1.Context := Some (<["email" := "invalid-email"]> ∅);
     V1.Type_ := V1.ValidationError; V1.StatusCode := 400;
     V1.Retryable := false |}.

Definition v1_sample : V1.heap :=
  [ V1.errorString "connection timeout";
    V1.Managed v1_sample_db;
    V1.wrapError
      "giving up: [system:db_connection_failed] Failed to connect to database"
      (Some 1);
    V1.errorString "file not found";
    V1.Managed v1_sample_email ].

Definition v1_sample_calls : list V1.call :=
  [ V1.CallErrorsNew "connection timeout";
    V1.CallNewErrorWithCause V1.SystemError "db_connection_failed"
      "Failed to connect to database" (Some 0);
    V1.CallWithRetryable 1 true;
    V1.CallWithContext 1 "database" "users_db";
    V1.CallWrap (Some 1) "giving up";
    V1.CallErrorsNew "file not found";
    V1.CallNewError V1.ValidationError "invalid_email" "Invalid email format";
    V1.CallWithDetails 4 "Must contain @ symbol";
    V1.CallWithContext 4 "email" "invalid-email";
    V1.CallWithStatusCode 4 400 ].

(** A store of the root package: an opaque error, and a managed error
    wrapped around it. *)
Definition root_sample_api : Root.ManagedError :=
  {| Root.Type_ := Root.ExternalError;
     Root.Message := "failed to connect to API"; Root.Cause := Some 0;
     Root.Context := Some (<["userId" := AnyInt 123]> ∅) |}.

Definition root_sample : Root.heap :=
  [ Root.errorString "connection timeout"; Root.Managed root_sample_api ].

Definition root_sample_calls : list Root.call :=
  [ Root.CallErrorsNew "connection timeout";
    Root.CallWrap (Some 0) Root.ExternalError "failed to connect to API";
    Root.CallWithContext 1 "userId" (AnyInt 123) ].

(** ** The helpers of the example test ([src/unnamed/part_000]) *)

Module ExampleTest.

(** [s[i:j]]: Go panics unless [0 <= i <= j <= len(s)]. *)
Definition slice (s : string) (i j : Z) : result string :=
  if bool_decide (0 ≤ i ∧ i ≤ j ∧ j ≤ Z.of_nat (String.length s))%Z
  then Ok (String.substring (Z.to_nat i) (Z.to_nat (j - i)) s)
  else Panic "slice bounds out of range".

(** The loop of [func contains(s, substr string) bool], entered with the
    counter at [i]: the guard [i <= len(s)-len(substr)] is evaluated on
    signed integers, the body compares [s[i:i+len(substr)]] with [substr],
    and the step is [i++].  [fuel] bounds the number of iterations. *)
Fixpoint contains_loop (fuel : nat) (s substr : string) (i : Z) : result bool :=
  if bool_decide (i ≤ Z.of_nat (String.length s) - Z.of_nat (String.length substr))%Z
  then
    match fuel with
    | O => Timeout
    | S fuel' =>
        piece ← slice s i (i + Z.of_nat (String.length substr));
        if bool_decide (piece = substr) then Ok true
        else contains_loop fuel' s substr (i + 1)
    end
  else Ok false.

(** [func contains(s, substr string) bool]; the loop runs at most
    [len(s) + 1] times. *)
Definition contains (s substr : string) : result bool :=
  contains_loop (S (String.length s)) s substr 0.

(** [func saveToDatabase(email, password string) error]. *)
Definition saveToDatabase (email password : string) : GoM V1.obj error :=
  mret None.

(** [func registerUser(email, password string) error]. *)
Definition registerUser (email password : string) : GoM V1.obj error :=
  hasAt ← reading (λ _, contains email "@");
  if negb hasAt then
    e ← V1.NewError V1.ValidationError "invalid_email" "Invalid email format";
    e ← V1.WithDetails e "Must contain @ symbol";
    e ← V1.WithContext e "email" email;
    e ← V1.WithStatusCode e 400;
    mret (Some (addr e))
  else if bool_decide (String.length password < 8) then
    e ← V1.NewError V1.ValidationError "weak_password" "Password too weak";
    e ← V1.WithDetails e "Password must be at least 8 characters";
    e ← V1.WithStatusCode e 400;
    mret (Some (addr e))
  else
    err ← saveToDatabase email password;
    match err with
    | Some _ =>
        e ← V1.NewErrorWithCause V1.SystemError "db_save_failed"
              "Failed to save user" err;
        e ← V1.WithRetryable e true;
        e ← V1.WithContext e "operation" "user_registration";
        mret (Some (addr e))
    | None => mret None
    end.

End ExampleTest.

(** ** More notions used by the properties *)

(** The comparison [Is] makes between two managed errors. *)
Definition v1_matches (m mt : V1.ManagedError) : bool :=
  bool_decide (V1.Type_ m = V1.Type_ mt) && bool_decide (V1.Code m = V1.Code mt).


(** The rendering of a managed error of [v1] without its details. *)
Definition v1_headline (m : V1.ManagedError) : string :=
  "[" +:+ V1.Type_ m +:+ ":" +:+ V1.Code m +:+ "] " +:+ V1.Message m.

(** [s] ends with [suffix]. *)
Definition ends_with (s suffix : string) : Prop :=
  ∃ pre : string, s = pre +:+ suffix.

(** The object at [l] is a managed error of the root package. *)
Definition root_is_managed (h : Root.heap) (l : loc) : bool :=
  match h !! l with
  | Some (Root.Managed _) => true
  | _ => false
  end.

(** The rendering of a managed error of the root package without its
    cause. *)
Definition root_headline (m : Root.ManagedError) : string :=
  "[" +:+ Root.ErrorType_String (Root.Type_ m) +:+ "] " +:+ Root.Message m.

(** The headlines of the managed errors at [ls], each followed by the
    separator [Error] puts before a cause. *)
Fixpoint root_prefix (h : Root.heap) (ls : list loc) : string :=
  match ls with
  | [] => ""
  | l :: ls' =>
      match h !! l with
      | Some (Root.Managed m) => root_headline m +:+ ": "
      | _ => ""
      end +:+ root_prefix h ls'
  end.

(** * Properties *)

(** ** Stores and chains *)

(** Two addresses are the same pointer exactly when they are equal. *)
Lemma bool_decide_addr (l t : loc) :
  bool_decide (addr l = addr t) = bool_decide (l = t).
Proof. apply bool_decide_ext. split; [by intros [= ->]|by intros ->]. Qed.

Section StoreFacts.
Context {O : Type} (unwrap : O → error).

Lemma check_wf_from_sound (n : nat) (h : list O) :
  check_wf_from unwrap n h = true →
  ∀ (l : loc) (o : O) (p : pointer), h !! l = Some o → unwrap o = Some p →
    ∃ c : loc, p = addr c ∧ c < n + l.
Proof.
  revert n. induction h as [|o' h IH]; intros n Hc l o p Hl Hu.
  - rewrite lookup_nil in Hl. discriminate.
  - simpl in Hc. apply andb_true_iff in Hc as [Hhd Htl].
    destruct l as [|l]; simpl in Hl.
    + injection Hl as ->. rewrite Hu in Hhd. destruct p as [c|]; [|done].
      apply bool_decide_eq_true in Hhd. exists c. split; [done|lia].
    + destruct (IH (S n) Htl l o p Hl Hu) as (c & -> & Hc).
      exists c. split; [done|lia].
Qed.

Lemma check_wf_sound (h : list O) : check_wf unwrap h = true → heap_wf unwrap h.
Proof.
  intros Hc l o p Hl Hu.
  apply (check_wf_from_sound 0 h Hc l o p Hl Hu).
Qed.

Lemma walk_chain (fuel : nat) (h : list O) (err : error) (ls : list loc) :
  walk unwrap fuel h err = Some ls → chain unwrap h err ls.
Proof.
  revert err ls. induction fuel as [|fuel IH]; intros [[l|]|] ls Hw;
    simpl in Hw; try discriminate; try (injection Hw as <-; constructor).
  destruct (h !! l) as [o|] eqn:Hl; simpl in Hw; [|discriminate].
  destruct (walk unwrap fuel h (unwrap o)) as [ls'|] eqn:Hrec;
    simpl in Hw; [|discriminate].
  injection Hw as <-. eapply chain_cons; [exact Hl|]. by apply IH.
Qed.

Lemma heap_wf_nil : heap_wf unwrap [].
Proof. intros l o c Hl. rewrite lookup_nil in Hl. discriminate. Qed.

(** In an ordered store a cause is an object allocated earlier. *)
Lemma heap_wf_lt (h : list O) (l c : loc) (o : O) :
  heap_wf unwrap h → h !! l = Some o → unwrap o = Some (addr c) → c < l.
Proof.
  intros Hwf Hl Hu. destruct (Hwf l o (addr c) Hl Hu) as (c' & [= <-] & Hc).
  exact Hc.
Qed.

Lemma heap_wf_ordered (h : list O) : heap_wf unwrap h → heap_ordered unwrap h.
Proof. intros Hwf l o c Hl Hu. by eapply heap_wf_lt. Qed.

(** Allocation keeps the order when the new object refers into the store. *)
Lemma heap_wf_alloc (h : list O) (o : O) :
  heap_wf unwrap h → in_store h (unwrap o) = true → heap_wf unwrap (h ++ [o]).
Proof.
  intros Hwf Hin l o' p Hl Hu.
  destruct (decide (l < length h)) as [Hlt|Hge].
  - rewrite lookup_app_l in Hl by done. eauto.
  - rewrite lookup_app_r in Hl by lia.
    destruct (l - length h) as [|k] eqn:Hk; simpl in Hl; [|by destruct k].
    injection Hl as <-. rewrite Hu in Hin. destruct p as [c|]; [|done].
    simpl in Hin. apply bool_decide_eq_true in Hin.
    exists c. split; [done|lia].
Qed.

(** A write that leaves the cause alone keeps the order. *)
Lemma heap_wf_write (h : list O) (l : loc) (o o' : O) :
  heap_wf unwrap h → h !! l = Some o → unwrap o' = unwrap o →
  heap_wf unwrap (<[l := o']> h).
Proof.
  intros Hwf Hl Hu l' o'' c Hl' Hu'.
  destruct (decide (l = l')) as [->|Hne].
  - rewrite list_lookup_insert_eq in Hl' by (by eapply lookup_lt_Some).
    injection Hl' as <-. rewrite Hu in Hu'. eauto.
  - rewrite list_lookup_insert_ne in Hl' by done. eauto.
Qed.

Lemma chain_functional (h : list O) (err : error) (ls ls' : list loc) :
  chain unwrap h err ls → chain unwrap h err ls' → ls = ls'.
Proof.
  intros H. revert ls'. induction H as [|l o ls Hl _ IH]; intros ls' H'.
  - by inversion H'.
  - inversion H' as [|l' o' ls'' Hl' Hc']; subst.
    rewrite Hl in Hl'. injection Hl' as <-. f_equal. by apply IH.
Qed.

(** In an ordered store every chain ends: the walk from address [l]
    visits at most [l + 1] objects. *)
Lemma chain_exists_at (h : list O) :
  heap_wf unwrap h →
  ∀ (n : nat) (l : loc), l < n → l < length h →
    ∃ ls, chain unwrap h (Some (addr l)) ls ∧ length ls ≤ S l.
Proof.
  intros Hwf n. induction n as [|n IH]; intros l Hn Hlen; [lia|].
  destruct (lookup_lt_is_Some_2 h l Hlen) as [o Ho].
  destruct (unwrap o) as [p|] eqn:Hu.
  - destruct (Hwf l o p Ho Hu) as (c & -> & Hc).
    destruct (IH c) as (ls & Hch & Hls); [lia|lia|].
    exists (l :: ls). split; [|simpl; lia].
    eapply chain_cons; [exact Ho|]. by rewrite Hu.
  - exists [l]. split; [|simpl; lia].
    eapply chain_cons; [exact Ho|]. rewrite Hu. constructor.
Qed.

Lemma chain_exists (h : list O) (err : error) :
  heap_wf unwrap h → in_store h err = true →
  ∃ ls, chain unwrap h err ls ∧ length ls ≤ length h.
Proof.
  intros Hwf Hin. destruct err as [[l|]|]; [| done |].
  - simpl in Hin. apply bool_decide_eq_true in Hin.
    destruct (chain_exists_at h Hwf (S l) l) as (ls & Hch & Hls); [lia|done|].
    exists ls. split; [done|lia].
  - exists []. split; [constructor|simpl; lia].
Qed.

(** Objects on a chain are in the store. *)
Lemma chain_in_store (h : list O) (err : error) (ls : list loc) :
  chain unwrap h err ls → Forall (λ l, l < length h) ls.
Proof.
  induction 1 as [|l o ls Hl _ IH]; constructor; [|done].
  by eapply lookup_lt_Some.
Qed.

(** Allocation does not disturb the chains that were there. *)
Lemma chain_alloc (h : list O) (o : O) (err : error) (ls : list loc) :
  chain unwrap h err ls → chain unwrap (h ++ [o]) err ls.
Proof.
  induction 1 as [|l o' ls Hl _ IH]; econstructor; [|done].
  rewrite lookup_app_l; [done|]. by eapply lookup_lt_Some.
Qed.

(** A chain is a walk that ends in nil. *)
Lemma chain_reaches (h : list O) (err : error) (ls : list loc) :
  chain unwrap h err ls ↔ reaches unwrap h err ls None.
Proof.
  split.
  - induction 1 as [|l o ls Hl _ IH]; econstructor; done.
  - intros H. remember None as last eqn:Hlast.
    induction H as [| |l o ls last Hl _ IH]; try done.
    + constructor.
    + econstructor; [done|]. by apply IH.
Qed.

Lemma reaches_functional (h : list O) (err : error) (ls ls' : list loc)
    (last last' : error) :
  reaches unwrap h err ls last → reaches unwrap h err ls' last' →
  ls = ls' ∧ last = last'.
Proof.
  intros H. revert ls' last'.
  induction H as [| |l o ls last Hl _ IH]; intros ls' last' H'.
  - by inversion H'.
  - by inversion H'.
  - inversion H' as [| |l' o' ls'' last'' Hl' Hc']; subst.
    rewrite Hl in Hl'. injection Hl' as <-.
    destruct (IH _ _ Hc') as [-> ->]. done.
Qed.

(** The end of a walk is nil or the nil [*ManagedError]. *)
Lemma reaches_last (h : list O) (err : error) (ls : list loc) (last : error) :
  reaches unwrap h err ls last → last = None ∨ last = Some nilManagedError.
Proof. induction 1; auto. Qed.

(** Where causes precede their holders every walk ends, whatever the
    client holds. *)
Lemma reaches_exists_at (h : list O) :
  heap_ordered unwrap h →
  ∀ (n : nat) (l : loc), l < n → l < length h →
    ∃ ls last, reaches unwrap h (Some (addr l)) ls last ∧ length ls ≤ S l.
Proof.
  intros Hord n. induction n as [|n IH]; intros l Hn Hlen; [lia|].
  destruct (lookup_lt_is_Some_2 h l Hlen) as [o Ho].
  destruct (unwrap o) as [[c|]|] eqn:Hu.
  - pose proof (Hord l o c Ho Hu) as Hc.
    destruct (IH c) as (ls & last & Hch & Hls); [lia|lia|].
    exists (l :: ls), last. split; [|simpl; lia].
    eapply reaches_cons; [exact Ho|]. by rewrite Hu.
  - exists [l], (Some nilManagedError). split; [|simpl; lia].
    eapply reaches_cons; [exact Ho|]. rewrite Hu. constructor.
  - exists [l], None. split; [|simpl; lia].
    eapply reaches_cons; [exact Ho|]. rewrite Hu. constructor.
Qed.

Lemma reaches_exists (h : list O) (err : error) :
  heap_ordered unwrap h → holds h err = true →
  ∃ ls last, reaches unwrap h err ls last ∧ length ls ≤ length h.
Proof.
  intros Hord Hin. destruct err as [[l|]|].
  - simpl in Hin. apply bool_decide_eq_true in Hin.
    destruct (reaches_exists_at h Hord (S l) l) as (ls & last & Hch & Hls);
      [lia|done|].
    exists ls, last. split; [done|lia].
  - exists [], (Some nilManagedError). split; [constructor|simpl; lia].
  - exists [], None. split; [constructor|simpl; lia].
Qed.

(** A walk ends in nil exactly when it is a chain, and it does in every
    store that holds no nil pointer. *)
Lemma reaches_ends_in_nil (h : list O) (err : error) (ls : list loc)
    (last : error) :
  reaches unwrap h err ls last →
  (last = None ↔ chain unwrap h err ls)
  ∧ (heap_wf unwrap h → in_store h err = true → last = None).
Proof.
  intros Hr. split; [split|].
  - intros ->. by apply chain_reaches.
  - intros Hch. apply chain_reaches in Hch.
    by destruct (reaches_functional h err ls ls last None Hr Hch).
  - intros Hwf Hin. destruct (chain_exists h err Hwf Hin) as (ls' & Hch & _).
    apply chain_reaches in Hch.
    by destruct (reaches_functional h err ls ls' last None Hr Hch).
Qed.

End StoreFacts.

(** ** The chain walk of [errors.As] in package [v1] *)

Lemma v1_find_first (h : V1.heap) (ls : list loc) :
  match V1.find_managed h ls with
  | Some l => ∃ m, h !! l = Some (V1.Managed m) ∧ V1.first_managed h ls = Some m
  | None => V1.first_managed h ls = None
  end.
Proof.
  induction ls as [|l ls IH]; simpl; [done|].
  destruct (h !! l) as [[s|msg err|m]|] eqn:Hl; try exact IH.
  exists m. by rewrite Hl.
Qed.

(** No [*ManagedError] is first exactly when none of the objects is one. *)
Lemma v1_first_managed_None (h : V1.heap) (ls : list loc) :
  V1.first_managed h ls = None ↔
  Forall (λ l, ∀ m, h !! l ≠ Some (V1.Managed m)) ls.
Proof.
  induction ls as [|l ls IH]; simpl.
  - split; [constructor|done].
  - destruct (h !! l) as [[s|msg err|m]|] eqn:Hl.
    + rewrite IH. split.
      * intros H. constructor; [by rewrite Hl|done].
      * by inversion 1.
    + rewrite IH. split.
      * intros H. constructor; [by rewrite Hl|done].
      * by inversion 1.
    + split; [done|]. inversion 1 as [|? ? Hm _]; subst.
      exfalso. by apply (Hm m).
    + rewrite IH. split.
      * intros H. constructor; [by rewrite Hl|done].
      * by inversion 1.
Qed.

(** [m] is first exactly when it sits behind a prefix free of
    [*ManagedError] objects. *)
Lemma v1_first_managed_Some (h : V1.heap) (ls : list loc) (m : V1.ManagedError) :
  V1.first_managed h ls = Some m ↔
  ∃ pre l post, ls = pre ++ l :: post ∧ V1.first_managed h pre = None
                ∧ h !! l = Some (V1.Managed m).
Proof.
  induction ls as [|l ls IH]; simpl.
  - split; [done|]. intros (pre & l & post & Heq & _). by destruct pre.
  - destruct (h !! l) as [o|] eqn:Hl.
    + destruct o as [s|msg err|m'].
      1,2: rewrite IH; split;
        [ intros (pre & l' & post & -> & Hpre & Hm);
          exists (l :: pre), l', post; simpl; by rewrite Hl
        | intros (pre & l' & post & Heq & Hpre & Hm);
          destruct pre as [|p pre]; simpl in Heq; injection Heq as <- ->;
          [ congruence
          | simpl in Hpre; rewrite Hl in Hpre; by exists pre, l', post ] ].
      split.
      * intros [= ->]. by exists [], l, ls.
      * intros (pre & l' & post & Heq & Hpre & Hm).
        destruct pre as [|p pre]; simpl in Heq; injection Heq as <- ->.
        -- congruence.
        -- simpl in Hpre. by rewrite Hl in Hpre.
    + rewrite IH; split.
      * intros (pre & l' & post & -> & Hpre & Hm).
        exists (l :: pre), l', post; simpl; by rewrite Hl.
      * intros (pre & l' & post & Heq & Hpre & Hm).
        destruct pre as [|p pre]; simpl in Heq; injection Heq as <- ->.
        -- congruence.
        -- simpl in Hpre; rewrite Hl in Hpre; by exists pre, l', post.
Qed.

(** With fuel for every object visited, [errors.As] returns: it stores the
    first [*ManagedError] object of the walk in its target, or else what
    the walk ends in. *)
Lemma v1_errors_As_reaches (h : V1.heap) (err : error) (ls : list loc)
    (last : error) :
  reaches V1.obj_Unwrap h err ls last →
  ∀ fuel, length ls ≤ fuel →
    V1.errors_As fuel h err = Ok (match V1.find_managed h ls with
                                  | Some l => Some (addr l)
                                  | None => last
                                  end).
Proof.
  induction 1 as [| |l o ls last Hl _ IH]; intros fuel Hfuel.
  - by destruct fuel.
  - by destruct fuel.
  - destruct fuel as [|fuel]; simpl in Hfuel; [lia|].
    simpl. rewrite Hl.
    destruct o as [s|msg err|m]; [| |done]; apply IH; lia.
Qed.

(** With fuel for every object of the chain, [errors.As] returns, and it
    stores the first [*ManagedError] of the chain in its target. *)
Lemma v1_errors_As_chain (h : V1.heap) (err : error) (ls : list loc) :
  chain V1.obj_Unwrap h err ls →
  ∀ fuel, length ls ≤ fuel →
    V1.errors_As fuel h err = Ok (addr <$> V1.find_managed h ls).
Proof.
  intros Hch fuel Hfuel. apply chain_reaches in Hch.
  rewrite (v1_errors_As_reaches h err ls None Hch fuel Hfuel).
  by destruct (V1.find_managed h ls).
Qed.

(** The three free functions share one shape: walk, then read a field
    through the pointer found. *)
Lemma v1_As_field_reaches {A : Type} (h : V1.heap) (err : error)
    (ls : list loc) (last : error) (fuel : nat)
    (field : V1.ManagedError → A) (otherwise : A) :
  reaches V1.obj_Unwrap h err ls last → length ls ≤ fuel →
  (found ← V1.errors_As fuel h err; V1.found_field h found field otherwise)
  = match V1.first_managed h ls with
    | Some m => Ok (field m)
    | None => match last with
              | None => Ok otherwise
              | Some _ => Panic nil_dereference
              end
    end.
Proof.
  intros Hch Hfuel. rewrite (v1_errors_As_reaches h err ls last Hch fuel Hfuel).
  pose proof (v1_find_first h ls) as Hff.
  destruct (V1.find_managed h ls) as [l|]; simpl.
  - destruct Hff as (m & Hm & ->). unfold V1.found_field. by rewrite Hm.
  - rewrite Hff. destruct (reaches_last V1.obj_Unwrap h err ls last Hch) as [-> | ->];
      done.
Qed.

Lemma v1_As_field {A : Type} (h : V1.heap) (err : error) (ls : list loc)
    (fuel : nat) (field : V1.ManagedError → A) (otherwise : A) :
  chain V1.obj_Unwrap h err ls → length ls ≤ fuel →
  (found ← V1.errors_As fuel h err; V1.found_field h found field otherwise)
  = Ok (match V1.first_managed h ls with
        | Some m => field m
        | None => otherwise
        end).
Proof.
  intros Hch Hfuel. apply chain_reaches in Hch.
  rewrite (v1_As_field_reaches h err ls None fuel field otherwise Hch Hfuel).
  by destruct (V1.first_managed h ls).
Qed.

(** ** Allocation and writes *)

Lemma alloc_lookup {O : Type} (h : list O) (o : O) : (h ++ [o]) !! length h = Some o.
Proof. by apply list_lookup_middle. Qed.

Lemma alloc_keeps {O : Type} (h : list O) (o o' : O) (l : loc) :
  h !! l = Some o' → (h ++ [o]) !! l = Some o'.
Proof. intros Hl. rewrite lookup_app_l; [done|]. by eapply lookup_lt_Some. Qed.

Lemma v1_through_ok (h : V1.heap) (e : loc) (m : V1.ManagedError)
    (f : V1.ManagedError → V1.ManagedError) :
  h !! e = Some (V1.Managed m) →
  V1.through e f h = Ok (e, <[e := V1.Managed (f m)]> h)
  ∧ (<[e := V1.Managed (f m)]> h) !! e = Some (V1.Managed (f m)).
Proof.
  intros He. unfold V1.through. rewrite He. split; [done|].
  apply list_lookup_insert_eq. by eapply lookup_lt_Some.
Qed.

(** ** C2: [IsRetryable] *)

(** C2, as the code has it.  Take a store in which causes precede their
    holders and an error the caller can hold, the nil [*ManagedError]
    included.  Given fuel for the store [IsRetryable] ends: with [ls] the
    objects its walk visits and [last] what the walk ends in, the answer
    is the [Retryable] flag of the first [*ManagedError] of [ls]; without
    one it is [false] when the walk ends in nil, and a nil dereference when
    it ends in the nil [*ManagedError].  The walk ends in nil exactly when
    [ls] is the cause chain of [err], as it does in every store that holds
    no nil pointer.  In particular a fresh error marked with
    [WithRetryable(true)] is retryable. *)
Theorem IsRetryable_total (h : V1.heap) (err : error) (fuel : nat) :
  heap_ordered V1.obj_Unwrap h → holds h err = true → length h < fuel →
  (∃ ls last, reaches V1.obj_Unwrap h err ls last
              ∧ V1.IsRetryable fuel h err
                = match V1.first_managed h ls with
                  | Some m => Ok (V1.Retryable m)
                  | None => match last with
                            | None => Ok false
                            | Some _ => Panic nil_dereference
                            end
                  end
              ∧ (last = None ↔ chain V1.obj_Unwrap h err ls)
              ∧ (heap_wf V1.obj_Unwrap h → in_store h err = true → last = None))
  ∧ (∀ (k : V1.ErrorType) (code message : string),
       ∃ (e : loc) h', (e ← V1.NewError k code message; V1.WithRetryable e true) h
                       = Ok (e, h')
                       ∧ V1.IsRetryable fuel h' (Some (addr e)) = Ok true).
Proof.
  intros Hord Hin Hfuel. split.
  - destruct (reaches_exists V1.obj_Unwrap h err Hord Hin)
      as (ls & last & Hr & Hlen).
    exists ls, last. split; [done|]. split.
    + unfold V1.IsRetryable. apply v1_As_field_reaches; [done|lia].
    + by apply reaches_ends_in_nil.
  - intros k code message.
    set (m := {| V1.Code := code; V1.Message := message; V1.Details := "";
                 V1.Cause := None; V1.Context := Some ∅; V1.Type_ := k;
                 V1.StatusCode := 0; V1.Retryable := false |}).
    destruct (v1_through_ok (h ++ [V1.Managed m]) (length h) m
                (V1.set_Retryable true) (alloc_lookup h _)) as [Hthr Hlook].
    eexists _, _. split.
    + unfold mbind, go_mbind, go_bind, V1.NewError, alloc.
      unfold V1.WithRetryable. fold m. exact Hthr.
    + destruct fuel as [|fuel]; [lia|].
      unfold V1.IsRetryable. simpl. rewrite Hlook. simpl.
      unfold V1.found_field. by rewrite Hlook.
Qed.

(** The claim as the specification words it fails on the nil
    [*ManagedError]: its walk visits no [ManagedError], and [IsRetryable]
    does not answer [false] but panics, whether the pointer is held
    directly or behind a wrapper that [Wrap] built. *)
Lemma IsRetryable_nil_pointer_panics :
  reaches V1.obj_Unwrap [] (Some nilManagedError) [] (Some nilManagedError)
  ∧ V1.first_managed [] [] = None
  ∧ V1.IsRetryable 1 [] (Some nilManagedError) = Panic nil_dereference
  ∧ V1.IsRetryable 1 [] (Some nilManagedError) ≠ Ok false
  ∧ evaluate (w ← V1.Wrap (Some nilManagedError) "lookup failed";
              reading (λ h, V1.IsRetryable 2 h w))
    = Panic nil_dereference.
Proof.
  split; [constructor|]. split; [reflexivity|]. split; [reflexivity|].
  split; [discriminate|]. vm_compute. reflexivity.
Qed.

(** ** C4: [GetContext] *)

(** C4, as the code has it.  Under the conditions of C2 [GetContext]
    ends: with [ls] the objects its walk visits and [last] what the walk
    ends in, the answer is the [Context] of the first [*ManagedError] of
    [ls]; without one it is nil (and so not an empty map) when the walk
    ends in nil, and a nil dereference when it ends in the nil
    [*ManagedError].  Where every context of the store is initialised,
    nil is returned only when the walk meets no [*ManagedError] and ends
    in nil. *)
Theorem GetContext_absent_or_first (h : V1.heap) (err : error) (fuel : nat) :
  heap_ordered V1.obj_Unwrap h → holds h err = true → length h ≤ fuel →
  ∃ ls last,
    reaches V1.obj_Unwrap h err ls last
    ∧ V1.GetContext fuel h err
      = match V1.first_managed h ls with
        | Some m => Ok (V1.Context m)
        | None => match last with
                  | None => Ok None
                  | Some _ => Panic nil_dereference
                  end
        end
    ∧ (last = None ↔ chain V1.obj_Unwrap h err ls)
    ∧ (heap_wf V1.obj_Unwrap h → in_store h err = true → last = None)
    ∧ (V1.first_managed h ls = None → last = None →
       V1.GetContext fuel h err = Ok None
       ∧ V1.GetContext fuel h err ≠ Ok (Some ∅))
    ∧ (V1.context_initialised h →
       (V1.GetContext fuel h err = Ok None
        ↔ V1.first_managed h ls = None ∧ last = None)).
Proof.
  intros Hord Hin Hfuel.
  destruct (reaches_exists V1.obj_Unwrap h err Hord Hin)
    as (ls & last & Hr & Hlen).
  exists ls, last.
  assert (V1.GetContext fuel h err
          = match V1.first_managed h ls with
            | Some m => Ok (V1.Context m)
            | None => match last with
                      | None => Ok None
                      | Some _ => Panic nil_dereference
                      end
            end) as Hget.
  { unfold V1.GetContext. apply v1_As_field_reaches; [done|lia]. }
  destruct (reaches_ends_in_nil V1.obj_Unwrap h err ls last Hr) as [Hnil Hwf].
  split; [done|]. split; [done|]. split; [done|]. split; [done|]. split.
  - intros Hnone ->. rewrite Hget, Hnone. done.
  - intros Hinit. rewrite Hget. split.
    + destruct (V1.first_managed h ls) as [m|] eqn:Hfm.
      * apply v1_first_managed_Some in Hfm as (pre & l & post & _ & _ & Hl).
        destruct (Hinit l m Hl) as [c Hc]. rewrite Hc. done.
      * by destruct last.
    + by intros [-> ->].
Qed.

(** The claim as the specification words it fails on the nil
    [*ManagedError]: its walk visits no [ManagedError], and [GetContext]
    does not answer nil but panics, whether the pointer is held directly
    or behind a wrapper that [Wrap] built. *)
Lemma GetContext_nil_pointer_panics :
  reaches V1.obj_Unwrap [] (Some nilManagedError) [] (Some nilManagedError)
  ∧ V1.first_managed [] [] = None
  ∧ V1.GetContext 1 [] (Some nilManagedError) = Panic nil_dereference
  ∧ V1.GetContext 1 [] (Some nilManagedError) ≠ Ok None
  ∧ evaluate (w ← V1.Wrap (Some nilManagedError) "lookup failed";
              reading (λ h, V1.GetContext 2 h w))
    = Panic nil_dereference.
Proof.
  split; [constructor|]. split; [reflexivity|]. split; [reflexivity|].
  split; [discriminate|]. vm_compute. reflexivity.
Qed.

(** ** What every store built through the [v1] API satisfies *)

Lemma v1_inv_alloc (h : V1.heap) (o : V1.obj) :
  v1_inv h → in_store h (V1.obj_Unwrap o) = true →
  (∀ m, o = V1.Managed m → is_Some (V1.Context m)) →
  v1_inv (h ++ [o]).
Proof.
  intros [Hwf Hctx] Hin Ho. split.
  - by apply heap_wf_alloc.
  - intros l m Hl. destruct (decide (l < length h)) as [Hlt|Hge].
    + rewrite lookup_app_l in Hl by done. eauto.
    + rewrite lookup_app_r in Hl by lia.
      destruct (l - length h) as [|k]; simpl in Hl; [|by destruct k].
      injection Hl as ->. by apply Ho.
Qed.

Lemma v1_inv_through (h h' : V1.heap) (e e' : loc)
    (f : V1.ManagedError → V1.ManagedError) :
  V1.through e f h = Ok (e', h') →
  (∀ m, V1.Cause (f m) = V1.Cause m) →
  (∀ m, is_Some (V1.Context m) → is_Some (V1.Context (f m))) →
  v1_inv h → v1_inv h' ∧ e' = e ∧ length h' = length h.
Proof.
  unfold V1.through. intros Hthr Hcause Hctxf [Hwf Hctx].
  destruct (h !! e) as [[s|msg err|m]|] eqn:He; try discriminate.
  injection Hthr as <- <-. split; [split|split; [done|apply length_insert]].
  - eapply heap_wf_write; [done|exact He|]. simpl. apply Hcause.
  - intros l m' Hl. destruct (decide (e = l)) as [->|Hne].
    + rewrite list_lookup_insert_eq in Hl by (by eapply lookup_lt_Some).
      injection Hl as <-. apply Hctxf. eauto.
    + rewrite list_lookup_insert_ne in Hl by done. eauto.
Qed.

Lemma v1_Errorf_inv (h h' : V1.heap) (message : string) (err r : error) :
  in_store h err = true →
  V1.Errorf_s_w message err h = Ok (r, h') → v1_inv h → v1_inv h'.
Proof.
  intros Hin Hrun Hinv. destruct err as [[e|]|]; [|done|]; simpl in Hrun.
  - unfold mbind, go_mbind, go_bind, reading, V1.Error in Hrun.
    destruct (h !! e) as [o|] eqn:He; [|discriminate].
    destruct o; simpl in Hrun; injection Hrun as <- <-;
      by apply v1_inv_alloc.
  - unfold V1.errors_New, mbind, go_mbind, go_bind, alloc in Hrun.
    simpl in Hrun. injection Hrun as <- <-. by apply v1_inv_alloc.
Qed.

Lemma v1_exec_inv (c : V1.call) (h h' : V1.heap) (r : error) :
  V1.exec c h = Ok (r, h') → v1_inv h → v1_inv h'.
Proof.
  intros Hrun Hinv. destruct c; simpl in Hrun.
  - injection Hrun as <- <-. by apply v1_inv_alloc.
  - injection Hrun as <- <-. apply v1_inv_alloc; [done|done|].
    intros m [= <-]. by eexists.
  - destruct (in_store h cause) eqn:Hin; [|discriminate].
    injection Hrun as <- <-. apply v1_inv_alloc; [done|done|].
    intros m [= <-]. by eexists.
  - unfold mbind, go_mbind, go_bind, V1.WithDetails in Hrun.
    destruct (V1.through e _ h) as [[e' h'']| | |] eqn:Hthr; try discriminate.
    injection Hrun as <- <-.
    by eapply (v1_inv_through h h'' e e') in Hthr as [? _].
  - unfold mbind, go_mbind, go_bind, V1.WithContext in Hrun.
    destruct (V1.through e _ h) as [[e' h'']| | |] eqn:Hthr; try discriminate.
    injection Hrun as <- <-.
    by eapply (v1_inv_through h h'' e e') in Hthr as [? _].
  - unfold mbind, go_mbind, go_bind, V1.WithRetryable in Hrun.
    destruct (V1.through e _ h) as [[e' h'']| | |] eqn:Hthr; try discriminate.
    injection Hrun as <- <-.
    by eapply (v1_inv_through h h'' e e') in Hthr as [? _].
  - unfold mbind, go_mbind, go_bind, V1.WithStatusCode in Hrun.
    destruct (V1.through e _ h) as [[e' h'']| | |] eqn:Hthr; try discriminate.
    injection Hrun as <- <-.
    by eapply (v1_inv_through h h'' e e') in Hthr as [? _].
  - destruct (in_store h err) eqn:Hin; [|discriminate].
    by eapply v1_Errorf_inv.
  - destruct (in_store h err) eqn:Hin; [|discriminate].
    unfold V1.Wrapf in Hrun. destruct (Sprintf format args); [|discriminate].
    by eapply v1_Errorf_inv.
Qed.

Lemma v1_run_inv (cs : list V1.call) (h h' : V1.heap) :
  V1.run cs h = Ok ((), h') → v1_inv h → v1_inv h'.
Proof.
  revert h. induction cs as [|c cs IH]; intros h Hrun Hinv; simpl in Hrun.
  - by injection Hrun as <-.
  - unfold mbind, go_mbind, go_bind in Hrun.
    destruct (V1.exec c h) as [[r h'']| | |] eqn:Hexec; try discriminate.
    eapply IH; [exact Hrun|]. by eapply v1_exec_inv.
Qed.

Lemma v1_inv_empty : v1_inv [].
Proof.
  split; [apply heap_wf_nil|].
  intros l m Hl. rewrite lookup_nil in Hl. discriminate.
Qed.

Lemma v1_mutate_ok (mu : V1.mutation) (h : V1.heap) (e : loc) (m : V1.ManagedError) :
  h !! e = Some (V1.Managed m) →
  ∃ m', V1.mutate e mu h = Ok (e, <[e := V1.Managed m']> h)
        ∧ (is_Some (V1.Context m) → is_Some (V1.Context m'))
        ∧ V1.Cause m' = V1.Cause m ∧ V1.Message m' = V1.Message m
        ∧ V1.Type_ m' = V1.Type_ m ∧ V1.Code m' = V1.Code m.
Proof.
  intros He. destruct mu; simpl;
    unfold V1.WithDetails, V1.WithContext, V1.WithRetryable, V1.WithStatusCode;
    eexists; (split; [by apply v1_through_ok|]); simpl; done.
Qed.

(** A fluent chain on a [*ManagedError] never fails, returns the receiver,
    keeps an initialised context initialised and leaves kind, code,
    message and cause as they were. *)
Lemma v1_fluent_ok (mus : list V1.mutation) (h : V1.heap) (e : loc)
    (m : V1.ManagedError) :
  h !! e = Some (V1.Managed m) →
  ∃ h' m', V1.fluent e mus h = Ok (e, h')
           ∧ h' !! e = Some (V1.Managed m')
           ∧ (is_Some (V1.Context m) → is_Some (V1.Context m'))
           ∧ V1.Cause m' = V1.Cause m ∧ V1.Message m' = V1.Message m
           ∧ V1.Type_ m' = V1.Type_ m ∧ V1.Code m' = V1.Code m.
Proof.
  revert h m. induction mus as [|mu mus IH]; intros h m He.
  - exists h, m. by repeat split.
  - destruct (v1_mutate_ok mu h e m He) as (m1 & Hmu & Hctx & Hc & Hm & Ht & Hk).
    assert ((<[e := V1.Managed m1]> h) !! e = Some (V1.Managed m1)) as He1.
    { apply list_lookup_insert_eq. by eapply lookup_lt_Some. }
    destruct (IH _ m1 He1) as (h' & m' & Hfl & He' & Hctx' & Hc' & Hm' & Ht' & Hk').
    exists h', m'. simpl. unfold mbind, go_mbind, go_bind. rewrite Hmu.
    repeat split; try done; try congruence. tauto.
Qed.

(** ** What every store built through the root API satisfies *)

Lemma root_inv_alloc (h : Root.heap) (o : Root.obj) :
  root_inv h → in_store h (Root.obj_Unwrap o) = true →
  (∀ m, o = Root.Managed m → is_Some (Root.Context m)) →
  root_inv (h ++ [o]).
Proof.
  intros [Hwf Hctx] Hin Ho. split.
  - by apply heap_wf_alloc.
  - intros l m Hl. destruct (decide (l < length h)) as [Hlt|Hge].
    + rewrite lookup_app_l in Hl by done. eauto.
    + rewrite lookup_app_r in Hl by lia.
      destruct (l - length h) as [|k]; simpl in Hl; [|by destruct k].
      injection Hl as ->. by apply Ho.
Qed.

(** With an initialised context [WithContext] does not panic; it writes
    the entry and returns the receiver. *)
Lemma root_WithContext_ok (h : Root.heap) (me : loc) (m : Root.ManagedError)
    (c : gmap string any) (key : string) (value : any) :
  h !! me = Some (Root.Managed m) → Root.Context m = Some c →
  let m' := {| Root.Type_ := Root.Type_ m; Root.Message := Root.Message m;
               Root.Cause := Root.Cause m;
               Root.Context := Some (<[key := value]> c) |} in
  Root.WithContext me key value h = Ok (me, <[me := Root.Managed m']> h)
  ∧ (<[me := Root.Managed m']> h) !! me = Some (Root.Managed m').
Proof.
  intros He Hc. unfold Root.WithContext. rewrite He, Hc. split; [done|].
  apply list_lookup_insert_eq. by eapply lookup_lt_Some.
Qed.

Lemma root_inv_write (h : Root.heap) (me : loc) (m m' : Root.ManagedError) :
  root_inv h → h !! me = Some (Root.Managed m) →
  Root.Cause m' = Root.Cause m → is_Some (Root.Context m') →
  root_inv (<[me := Root.Managed m']> h).
Proof.
  intros [Hwf Hctx] He Hcause Hsome. split.
  - by eapply heap_wf_write.
  - intros l m'' Hl. destruct (decide (me = l)) as [->|Hne].
    + rewrite list_lookup_insert_eq in Hl by (by eapply lookup_lt_Some).
      by injection Hl as <-.
    + rewrite list_lookup_insert_ne in Hl by done. eauto.
Qed.

Lemma root_exec_inv (c : Root.call) (h : Root.heap) :
  root_inv h →
  match Root.exec c h with
  | Ok (_, h') => root_inv h'
  | Panic _ => False
  | _ => True
  end.
Proof.
  intros Hinv. destruct c; simpl.
  - by apply root_inv_alloc.
  - apply root_inv_alloc; [done|done|]. intros m [= <-]. by eexists.
  - destruct (in_store h err) eqn:Hin; [|done]. simpl.
    apply root_inv_alloc; [done|done|]. intros m [= <-]. by eexists.
  - unfold mbind, go_mbind, go_bind.
    destruct (h !! me) as [[s|msg err|m]|] eqn:He;
      unfold Root.WithContext; rewrite He; try done.
    destruct (proj2 Hinv me m He) as [c Hc]. rewrite Hc. simpl.
    eapply root_inv_write; [done|exact He|done|by eexists].
Qed.

Lemma root_run_inv (cs : list Root.call) (h : Root.heap) :
  root_inv h →
  match Root.run cs h with
  | Ok (_, h') => root_inv h'
  | Panic _ => False
  | _ => True
  end.
Proof.
  revert h. induction cs as [|c cs IH]; intros h Hinv; simpl; [done|].
  unfold mbind, go_mbind, go_bind.
  pose proof (root_exec_inv c h Hinv) as Hexec.
  destruct (Root.exec c h) as [[r h'']| | |]; try done. by apply IH.
Qed.

Lemma root_fluent_ok (kvs : list (string * any)) (h : Root.heap) (me : loc)
    (m : Root.ManagedError) :
  h !! me = Some (Root.Managed m) → is_Some (Root.Context m) →
  ∃ h' m', Root.fluent me kvs h = Ok (me, h')
           ∧ h' !! me = Some (Root.Managed m')
           ∧ is_Some (Root.Context m')
           ∧ Root.Cause m' = Root.Cause m ∧ Root.Message m' = Root.Message m
           ∧ Root.Type_ m' = Root.Type_ m.
Proof.
  revert h m. induction kvs as [|[key value] kvs IH]; intros h m He [c Hc].
  - exists h, m. by repeat split.
  - destruct (root_WithContext_ok h me m c key value He Hc) as [Hw Hlook].
    destruct (IH _ _ Hlook) as (h' & m' & Hfl & He' & Hctx' & Hc' & Hm' & Ht');
      [by eexists|].
    exists h', m'. simpl. unfold mbind, go_mbind, go_bind. rewrite Hw.
    by repeat split.
Qed.

(** ** C8: the context is always there *)

Lemma v1_alloc_initialises (m0 : V1.ManagedError) :
  V1.Context m0 = Some ∅ → v1_initialises (alloc (V1.Managed m0)).
Proof.
  intros Hctx h. exists (length h), (h ++ [V1.Managed m0]), m0.
  split; [done|]. split; [apply alloc_lookup|]. split; [done|].
  intros mus.
  destruct (v1_fluent_ok mus _ _ m0 (alloc_lookup h (V1.Managed m0)))
    as (h' & m & Hfl & He & Hsome & _).
  exists h', m. repeat split; [done|done|]. apply Hsome. by eexists.
Qed.

Lemma root_alloc_initialises (m0 : Root.ManagedError) :
  Root.Context m0 = Some ∅ → root_initialises (alloc (Root.Managed m0)).
Proof.
  intros Hctx h. exists (length h), (h ++ [Root.Managed m0]), m0.
  split; [done|]. split; [apply alloc_lookup|]. split; [done|].
  intros kvs.
  destruct (root_fluent_ok kvs _ _ m0 (alloc_lookup h (Root.Managed m0)))
    as (h' & m & Hfl & He & Hsome & _); [by eexists|].
  by exists h', m.
Qed.

(** C8.  Each constructor of either package returns an error whose context
    is the empty map, not nil; any fluent chain on that error succeeds (in
    the root package [WithContext] never meets a nil map, so it does not
    panic) and leaves the context non-nil.  The same holds store-wide:
    after any sequence of API calls every [*ManagedError] has a non-nil
    context, and no call of the root package has panicked. *)
Theorem context_always_initialised :
  (∀ t code message, v1_initialises (V1.NewError t code message))
  ∧ (∀ t code message cause,
       v1_initialises (V1.NewErrorWithCause t code message cause))
  ∧ (∀ ty message, root_initialises (Root.New ty message))
  ∧ (∀ err ty message, root_initialises (Root.Wrap err ty message))
  ∧ (∀ cs h, V1.run cs [] = Ok ((), h) → V1.context_initialised h)
  ∧ (∀ cs, match Root.run cs [] with
           | Ok (_, h) => Root.context_initialised h
           | Panic _ => False
           | _ => True
           end).
Proof.
  repeat split.
  - intros. by apply v1_alloc_initialises.
  - intros. by apply v1_alloc_initialises.
  - intros. by apply root_alloc_initialises.
  - intros. by apply root_alloc_initialises.
  - intros cs h Hrun. by apply (v1_run_inv cs [] h Hrun v1_inv_empty).
  - intros cs.
    assert (root_inv []) as Hinv.
    { split; [apply heap_wf_nil|]. intros l m Hl. by rewrite lookup_nil in Hl. }
    pose proof (root_run_inv cs [] Hinv) as Hrun.
    destruct (Root.run cs []) as [[u h]| | |]; try done. apply Hrun.
Qed.

(** ** C7: [Unwrap] hands back the cause *)

(** C7.  [NewErrorWithCause(k, code, m, cause).Unwrap()] is [cause]
    itself: the same interface value (nil, or the same address), with the
    object it points to left in place and unchanged, also after any fluent
    chain.  [Unwrap] on an error from [NewError] returns nil. *)
Theorem Unwrap_returns_cause (h : V1.heap) (t : V1.ErrorType)
    (code message : string) (cause : error) :
  (∃ e h', V1.NewErrorWithCause t code message cause h = Ok (e, h')
           ∧ h !! e = None
           ∧ V1.Unwrap h' e = Ok cause
           ∧ (∀ l o, h !! l = Some o → h' !! l = Some o)
           ∧ ∀ mus, ∃ h'', V1.fluent e mus h' = Ok (e, h'')
                           ∧ V1.Unwrap h'' e = Ok cause)
  ∧ (∃ e h', V1.NewError t code message h = Ok (e, h')
             ∧ V1.Unwrap h' e = Ok None).
Proof.
  split.
  - set (m0 := {| V1.Code := code; V1.Message := message; V1.Details := "";
                  V1.Cause := cause; V1.Context := Some ∅; V1.Type_ := t;
                  V1.StatusCode := 0; V1.Retryable := false |}).
    exists (length h), (h ++ [V1.Managed m0]). split; [reflexivity|].
    split; [by apply lookup_ge_None_2|].
    split; [unfold V1.Unwrap; by rewrite alloc_lookup|].
    split; [intros l o Hl; by apply alloc_keeps|].
    intros mus.
    destruct (v1_fluent_ok mus _ _ m0 (alloc_lookup h (V1.Managed m0)))
      as (h'' & m & Hfl & He & _ & Hcause & _).
    exists h''. split; [done|]. unfold V1.Unwrap. rewrite He.
    by rewrite Hcause.
  - eexists _, _. split; [reflexivity|].
    unfold V1.Unwrap. by rewrite alloc_lookup.
Qed.

(** ** C9: a second write to a key replaces the first *)

Lemma filter_key_absent {K V : Type} `{EqDecision K} (l : list (K * V)) (k : K) :
  k ∉ l.*1 → filter (λ kv, kv.1 = k) l = [].
Proof.
  induction l as [|[k' v'] l IH]; intros Hk; [done|].
  rewrite fmap_cons, not_elem_of_cons in Hk. destruct Hk as [Hne Hk].
  rewrite filter_cons_False by (simpl in *; congruence). by apply IH.
Qed.

Lemma filter_key_nodup {K V : Type} `{EqDecision K} (l : list (K * V)) (k : K) (v : V) :
  NoDup (l.*1) → (k, v) ∈ l → filter (λ kv, kv.1 = k) l = [(k, v)].
Proof.
  induction l as [|[k' v'] l IH]; intros Hnd Hin.
  - by apply elem_of_nil in Hin.
  - rewrite fmap_cons in Hnd. apply NoDup_cons in Hnd as [Hk' Hnd].
    apply elem_of_cons in Hin as [Heq|Hin].
    + injection Heq as <- <-.
      rewrite filter_cons_True by done. f_equal. by apply filter_key_absent.
    + destruct (decide (k' = k)) as [->|Hne].
      * exfalso. apply Hk'. apply list_elem_of_fmap. by exists (k, v).
      * rewrite filter_cons_False by (simpl; congruence). by apply IH.
Qed.

(** The entries of a map under one key: at most one, the one [!!] finds. *)
Lemma one_entry_for_key {V : Type} (c : gmap string V) (key : string) (v : V) :
  c !! key = Some v → filter (λ kv, kv.1 = key) (map_to_list c) = [(key, v)].
Proof.
  intros Hc. apply filter_key_nodup.
  - apply NoDup_fst_map_to_list.
  - by apply elem_of_map_to_list.
Qed.

(** C9.  In both packages, [WithContext(key, v1)] followed by
    [WithContext(key, v2)] on a managed error returns the receiver, whose
    context then has exactly one entry under [key], holding [v2]; every
    other key reads as before the two calls, and no other object of the
    store is touched.  (In [v1] a nil context counts as empty; in the root
    package the receiver's context is initialised, as its constructors
    leave it.) *)
Theorem WithContext_last_write_wins :
  (∀ (h : V1.heap) (e : loc) (m : V1.ManagedError) (key v1 v2 : string),
     h !! e = Some (V1.Managed m) →
     ∃ h' m' c',
       (e1 ← V1.WithContext e key v1; V1.WithContext e1 key v2) h = Ok (e, h')
       ∧ h' !! e = Some (V1.Managed m') ∧ V1.Context m' = Some c'
       ∧ c' !! key = Some v2
       ∧ filter (λ kv, kv.1 = key) (map_to_list c') = [(key, v2)]
       ∧ (∀ k, k ≠ key →
            c' !! k = match V1.Context m with
                      | Some c => c !! k
                      | None => None
                      end)
       ∧ (∀ l, l ≠ e → h' !! l = h !! l))
  ∧ (∀ (h : Root.heap) (me : loc) (m : Root.ManagedError) (c : gmap string any)
       (key : string) (v1 v2 : any),
     h !! me = Some (Root.Managed m) → Root.Context m = Some c →
     ∃ h' m' c',
       (e1 ← Root.WithContext me key v1; Root.WithContext e1 key v2) h = Ok (me, h')
       ∧ h' !! me = Some (Root.Managed m') ∧ Root.Context m' = Some c'
       ∧ c' !! key = Some v2
       ∧ filter (λ kv, kv.1 = key) (map_to_list c') = [(key, v2)]
       ∧ (∀ k, k ≠ key → c' !! k = c !! k)
       ∧ (∀ l, l ≠ me → h' !! l = h !! l)).
Proof.
  split.
  - intros h e m key v1 v2 He.
    set (f := λ v (m : V1.ManagedError),
           V1.set_Context (Some (<[key := v]> match V1.Context m with
                                             | Some c => c
                                             | None => ∅
                                             end)) m).
    destruct (v1_through_ok h e m (f v1) He) as [H1 Hl1].
    destruct (v1_through_ok _ e _ (f v2) Hl1) as [H2 Hl2].
    eexists _, _, _. split.
    { unfold mbind, go_mbind, go_bind, V1.WithContext. fold (f v1) (f v2).
      rewrite H1. exact H2. }
    split; [exact Hl2|]. split; [reflexivity|]. subst f. simpl.
    assert (∀ c : gmap string string, <[key:=v2]> (<[key:=v1]> c) !! key = Some v2)
      as Hkey by (intros; apply lookup_insert_eq).
    split; [apply Hkey|]. split; [apply one_entry_for_key, Hkey|]. split.
    + intros k Hk. rewrite !lookup_insert_ne by done.
      destruct (V1.Context m); [done|apply lookup_empty].
    + intros l Hl. by rewrite !list_lookup_insert_ne.
  - intros h me m c key v1 v2 He Hc.
    destruct (root_WithContext_ok h me m c key v1 He Hc) as [H1 Hl1].
    destruct (root_WithContext_ok _ me _ _ key v2 Hl1 eq_refl) as [H2 Hl2].
    eexists _, _, _. split.
    { unfold mbind, go_mbind, go_bind. rewrite H1. exact H2. }
    split; [exact Hl2|]. split; [reflexivity|].
    split; [apply lookup_insert_eq|].
    split; [apply one_entry_for_key, lookup_insert_eq|]. split.
    + intros k Hk. by rewrite !lookup_insert_ne.
    + intros l Hl. by rewrite !list_lookup_insert_ne.
Qed.

(** ** Strings *)

Lemma append_assoc (a b c : string) : (a +:+ b) +:+ c = a +:+ (b +:+ c).
Proof. induction a as [|x a IH]; simpl; [done|]. by rewrite IH. Qed.

Lemma append_empty_r (a : string) : a +:+ "" = a.
Proof. induction a as [|x a IH]; simpl; [done|]. by rewrite IH. Qed.

(** Brings a concatenation into right-nested form. *)
Ltac string_normal := repeat rewrite append_assoc; simpl.

Lemma contains_intro (s pre sub post : string) :
  s = pre +:+ sub +:+ post → contains s sub.
Proof. intros ->. by exists pre, post. Qed.

(** ** C5: what the constructors do with the message *)

(** C5 as the code has it.  No constructor inspects its message: the new
    error's [Message] is the argument, character for character, so it is
    non-empty exactly when the argument is. *)
Theorem construction_keeps_message :
  (∀ (h : V1.heap) t code message,
     ∃ e h' m, V1.NewError t code message h = Ok (e, h')
               ∧ h' !! e = Some (V1.Managed m) ∧ V1.Message m = message)
  ∧ (∀ (h : V1.heap) t code message cause,
       ∃ e h' m, V1.NewErrorWithCause t code message cause h = Ok (e, h')
                 ∧ h' !! e = Some (V1.Managed m) ∧ V1.Message m = message)
  ∧ (∀ (h : Root.heap) ty message,
       ∃ e h' m, Root.New ty message h = Ok (e, h')
                 ∧ h' !! e = Some (Root.Managed m) ∧ Root.Message m = message)
  ∧ (∀ (h : Root.heap) err ty message,
       ∃ e h' m, Root.Wrap err ty message h = Ok (e, h')
                 ∧ h' !! e = Some (Root.Managed m) ∧ Root.Message m = message).
Proof.
  repeat split; intros; eexists _, _, _;
    (split; [reflexivity|]); (split; [apply alloc_lookup|]); done.
Qed.

(** C5 as stated fails: [NewError(ValidationError, "invalid_input", "")]
    and [New(ValidationError, "")] return errors with an empty message. *)
Lemma construction_empty_message :
  (∃ e h' m, V1.NewError V1.ValidationError "invalid_input" "" [] = Ok (e, h')
             ∧ h' !! e = Some (V1.Managed m) ∧ V1.Message m = "")
  ∧ (∃ e h' m, Root.New Root.ValidationError "" [] = Ok (e, h')
               ∧ h' !! e = Some (Root.Managed m) ∧ Root.Message m = "").
Proof. split; eexists _, _, _; repeat split. Qed.

(** ** C1: the layout of [Error()] *)

(** More fuel does not change a rendering of the root package. *)
Lemma root_Error_mono (h : Root.heap) (fuel : nat) :
  ∀ (e : loc) (s : string), Root.Error fuel h e = Ok s →
    ∀ fuel', fuel ≤ fuel' → Root.Error fuel' h e = Ok s.
Proof.
  induction fuel as [|fuel IH]; intros e s Hs fuel' Hle; [done|].
  destruct fuel' as [|fuel']; [lia|]. simpl in *.
  destruct (h !! e) as [[t|msg err|m]|]; try done.
  destruct (Root.Cause m) as [[c|]|]; [|done|done].
  destruct (Root.Error fuel h c) as [text| | |] eqn:Hc; try done.
  rewrite (IH c text Hc fuel') by lia. done.
Qed.

(** Where causes precede their holders every rendering of the root
    package returns. *)
Lemma root_Error_total (h : Root.heap) :
  heap_ordered Root.obj_Unwrap h →
  ∀ (fuel : nat) (e : loc), e < fuel → e < length h →
    ∃ s, Root.Error fuel h e = Ok s.
Proof.
  intros Hord fuel. induction fuel as [|fuel IH]; intros e Hfuel Hlen; [lia|].
  destruct (lookup_lt_is_Some_2 h e Hlen) as [o Ho].
  destruct o as [t|msg err|m].
  - eexists. simpl. by rewrite Ho.
  - eexists. simpl. by rewrite Ho.
  - destruct (Root.Cause m) as [[c|]|] eqn:Hcause.
    + pose proof (Hord e (Root.Managed m) c Ho Hcause) as Hc.
      destruct (IH c) as [text Htext]; [lia|lia|].
      eexists. simpl. by rewrite Ho, Hcause, Htext.
    + eexists. simpl. by rewrite Ho, Hcause.
    + eexists. simpl. by rewrite Ho, Hcause.
Qed.

(** C1 as the code has it.  The rendering is a function of the fields.
    Richer variant ([v1]): the tag holds kind and code,
    ["[<kind>:<code>] <message>"], followed by [": <details>"] when the
    details are non-empty, and the cause is never rendered.  Simpler
    variant (root): ["[<kind name>] <message>"], followed by
    [": <cause.Error()>"] when there is a cause, which reads [": <nil>"]
    for a cause that is the nil [*ManagedError]; where causes precede
    their holders this rendering returns, and every sufficient fuel gives
    the same string.  Either way the text contains the message and the
    bracketed tag. *)
Theorem Error_layout :
  (∀ (h : V1.heap) (e : loc) (m : V1.ManagedError),
     h !! e = Some (V1.Managed m) →
     ∃ s, V1.Error h e = Ok s
          ∧ s = "[" +:+ V1.Type_ m +:+ ":" +:+ V1.Code m +:+ "] " +:+ V1.Message m
                +:+ (if bool_decide (V1.Details m = "") then ""
                     else ": " +:+ V1.Details m)
          ∧ contains s (V1.Message m)
          ∧ contains s ("[" +:+ V1.Type_ m +:+ ":" +:+ V1.Code m +:+ "]"))
  ∧ (∀ (h : Root.heap) (e : loc) (m : Root.ManagedError),
       heap_ordered Root.obj_Unwrap h → h !! e = Some (Root.Managed m) →
       ∃ s, (∀ fuel, e < fuel → Root.Error fuel h e = Ok s)
            ∧ match Root.Cause m with
              | None =>
                  s = "[" +:+ Root.ErrorType_String (Root.Type_ m) +:+ "] "
                      +:+ Root.Message m
              | Some (addr cause) =>
                  ∃ text, (∀ fuel, cause < fuel → Root.Error fuel h cause = Ok text)
                          ∧ s = "[" +:+ Root.ErrorType_String (Root.Type_ m) +:+ "] "
                                +:+ Root.Message m +:+ ": " +:+ text
              | Some nilManagedError =>
                  s = "[" +:+ Root.ErrorType_String (Root.Type_ m) +:+ "] "
                      +:+ Root.Message m +:+ ": <nil>"
              end
            ∧ contains s (Root.Message m)
            ∧ contains s ("[" +:+ Root.ErrorType_String (Root.Type_ m) +:+ "]")).
Proof.
  split.
  - intros h e m He. eexists. split; [|split; [reflexivity|split]].
    + unfold V1.Error, V1.ManagedError_Error. rewrite He.
      destruct (decide (V1.Details m = "")) as [Hd|Hd].
      * rewrite (bool_decide_eq_false_2 (V1.Details m ≠ "")) by tauto.
        rewrite (bool_decide_eq_true_2 _ Hd). by rewrite append_empty_r.
      * rewrite (bool_decide_eq_true_2 _ Hd).
        by rewrite (bool_decide_eq_false_2 _ Hd).
    + apply contains_intro with
        (pre := "[" +:+ V1.Type_ m +:+ ":" +:+ V1.Code m +:+ "] ")
        (post := if bool_decide (V1.Details m = "") then ""
                 else ": " +:+ V1.Details m).
      by string_normal.
    + apply contains_intro with
        (pre := "")
        (post := " " +:+ V1.Message m
                 +:+ (if bool_decide (V1.Details m = "") then ""
                      else ": " +:+ V1.Details m)).
      by string_normal.
  - intros h e m Hwf He.
    assert (e < length h) as Hlen by (by eapply lookup_lt_Some).
    destruct (root_Error_total h Hwf (S e) e) as [s Hs]; [lia|done|].
    assert (∀ fuel, e < fuel → Root.Error fuel h e = Ok s) as Hall.
    { intros fuel Hfuel. apply (root_Error_mono h (S e) e s Hs). lia. }
    exists s. split; [exact Hall|].
    simpl in Hs. rewrite He in Hs.
    destruct (Root.Cause m) as [[c|]|] eqn:Hcause.
    + pose proof (Hwf e _ c He Hcause) as Hc.
      destruct (Root.Error e h c) as [text| | |] eqn:Htext; try done.
      simpl in Hs. injection Hs as <-. split; [|split].
      * exists text. split; [|done]. intros fuel Hfuel.
        destruct (root_Error_total h Hwf fuel c) as [text' Htext']; [lia|lia|].
        rewrite Htext'. f_equal.
        assert (Root.Error (fuel + e) h c = Ok text) as H1
            by (apply (root_Error_mono h e c text Htext); lia).
        assert (Root.Error (fuel + e) h c = Ok text') as H2
            by (apply (root_Error_mono h fuel c text' Htext'); lia).
        congruence.
      * apply contains_intro with
          (pre := "[" +:+ Root.ErrorType_String (Root.Type_ m) +:+ "] ")
          (post := ": " +:+ text).
        by string_normal.
      * apply contains_intro with
          (pre := "") (post := " " +:+ Root.Message m +:+ ": " +:+ text).
        by string_normal.
    + injection Hs as <-. split; [done|split].
      * apply contains_intro with
          (pre := "[" +:+ Root.ErrorType_String (Root.Type_ m) +:+ "] ")
          (post := ": <nil>").
        by string_normal.
      * apply contains_intro with
          (pre := "") (post := " " +:+ Root.Message m +:+ ": <nil>").
        by string_normal.
    + injection Hs as <-. split; [done|split].
      * apply contains_intro with
          (pre := "[" +:+ Root.ErrorType_String (Root.Type_ m) +:+ "] ")
          (post := "").
        string_normal. by rewrite append_empty_r.
      * apply contains_intro with (pre := "") (post := " " +:+ Root.Message m).
        by string_normal.
Qed.

(** C1 as stated fails in the richer variant: with neither details nor
    cause, [NewError(ValidationError, "invalid_email", "Invalid email
    format")] renders with the code inside the tag, not as
    ["[<kind>] <message>"]. *)
Lemma Error_layout_counterexample :
  ∃ e h m,
    V1.NewError V1.ValidationError "invalid_email" "Invalid email format" []
    = Ok (e, h)
    ∧ h !! e = Some (V1.Managed m)
    ∧ V1.Details m = "" ∧ V1.Cause m = None
    ∧ V1.Error h e = Ok "[validation:invalid_email] Invalid email format"
    ∧ V1.Error h e ≠ Ok ("[" +:+ V1.Type_ m +:+ "] " +:+ V1.Message m).
Proof. eexists _, _, _. repeat split. vm_compute. discriminate. Qed.

(** ** C3: [Is] between two managed errors *)

(** C3.  For two managed errors [e] and [t], [e.Is(t)] returns, and it is
    true exactly when kind and code agree; nothing else is read.  Hence
    [errors.Is] on two errors fresh from [NewError] is true exactly when
    they were given the same kind and the same code, whatever their
    messages. *)
Theorem Is_compares_kind_and_code (h : V1.heap) (e t : loc)
    (me mt : V1.ManagedError) (fuel : nat) :
  h !! e = Some (V1.Managed me) → h !! t = Some (V1.Managed mt) → 0 < fuel →
  (∃ b, V1.ManagedError_Is fuel h e (Some t) = Ok b
        ∧ (b = true ↔ V1.Type_ me = V1.Type_ mt ∧ V1.Code me = V1.Code mt))
  ∧ (∀ (k1 k2 : V1.ErrorType) (c1 c2 m1 m2 : string),
       ∃ e1 e2 h',
         (e1 ← V1.NewError k1 c1 m1; e2 ← V1.NewError k2 c2 m2; mret (e1, e2)) h
         = Ok ((e1, e2), h')
         ∧ V1.errors_Is (S fuel) h' (Some e1) (Some e2)
           = Ok (bool_decide (k1 = k2 ∧ c1 = c2))).
Proof.
  intros He Ht Hfuel. destruct fuel as [|fuel]; [lia|]. split.
  - eexists. split.
    + unfold V1.ManagedError_Is, V1.ManagedError_Is_body. rewrite He.
      simpl. rewrite Ht. simpl. rewrite Ht. reflexivity.
    + rewrite andb_true_iff, !bool_decide_eq_true. done.
  - intros k1 k2 c1 c2 m1 m2.
    set (o1 := V1.Managed {| V1.Code := c1; V1.Message := m1; V1.Details := "";
                             V1.Cause := None; V1.Context := Some ∅;
                             V1.Type_ := k1; V1.StatusCode := 0;
                             V1.Retryable := false |}).
    set (o2 := V1.Managed {| V1.Code := c2; V1.Message := m2; V1.Details := "";
                             V1.Cause := None; V1.Context := Some ∅;
                             V1.Type_ := k2; V1.StatusCode := 0;
                             V1.Retryable := false |}).
    exists (length h), (length (h ++ [o1])), ((h ++ [o1]) ++ [o2]).
    split; [reflexivity|].
    assert (((h ++ [o1]) ++ [o2]) !! length h = Some o1) as H1
        by apply alloc_keeps, alloc_lookup.
    assert (((h ++ [o1]) ++ [o2]) !! length (h ++ [o1]) = Some o2) as H2
        by apply alloc_lookup.
    assert (addr (length h) ≠ addr (length (h ++ [o1]))) as Hne
        by (rewrite length_app; simpl; intros [= Heq]; lia).
    cbn [V1.errors_Is]. rewrite (bool_decide_eq_false_2 _ Hne), H1.
    unfold o1 at 1. unfold V1.ManagedError_Is_body.
    cbn [V1.errors_As]. rewrite H2. unfold o2 at 1. simpl.
    rewrite H2. unfold o2 at 1. simpl.
    destruct (decide (k1 = k2)) as [Hk|Hk], (decide (c1 = c2)) as [Hc|Hc];
      rewrite ?(bool_decide_eq_true_2 _ Hk), ?(bool_decide_eq_false_2 _ Hk),
        ?(bool_decide_eq_true_2 _ Hc), ?(bool_decide_eq_false_2 _ Hc); simpl.
    + by rewrite bool_decide_eq_true_2.
    + rewrite bool_decide_eq_false_2 by tauto. done.
    + rewrite bool_decide_eq_false_2 by tauto. done.
    + rewrite bool_decide_eq_false_2 by tauto. done.
Qed.

(** ** C10: [Is] against a target that holds no managed error *)




(** ** C6: [Wrap] and [Wrapf] *)

Lemma Sprintf_plain (lit rest : string) (a : list any) :
  plain lit = true →
  Sprintf (lit +:+ rest) a = String.append lit <$> Sprintf rest a.
Proof.
  induction lit as [|c lit IH]; intros Hp; simpl.
  - by destruct (Sprintf rest a).
  - simpl in Hp. apply andb_true_iff in Hp as [Hc Hp].
    apply negb_true_iff in Hc. rewrite Hc, (IH Hp).
    by destruct (Sprintf rest a).
Qed.

Lemma Sprintf_plain_only (s : string) : plain s = true → Sprintf s [] = Some s.
Proof.
  induction s as [|c s IH]; intros Hp; simpl; [done|].
  simpl in Hp. apply andb_true_iff in Hp as [Hc Hp].
  apply negb_true_iff in Hc. by rewrite Hc, (IH Hp).
Qed.

Lemma printArg_v (x : any) : printArg x "v" = fmtV x.
Proof. by destruct x. Qed.

Lemma Sprintf_verb_v (rest : string) (x : any) (a : list any) :
  Sprintf (String "%" (String "v" rest)) (x :: a)
  = String.append (printArg x "v") <$> Sprintf rest a.
Proof. reflexivity. Qed.

(** Operands are substituted in the order of the verbs. *)
Lemma Sprintf_in_order (pieces : list (string * any)) (last : string) :
  Forall (λ p, plain p.1 = true) pieces → plain last = true →
  Sprintf (template pieces last) (pieces.*2) = Some (filled pieces last).
Proof.
  intros Hpieces Hlast. induction Hpieces as [|[lit x] pieces Hlit _ IH].
  - by apply Sprintf_plain_only.
  - cbn [template filled]. rewrite fmap_cons.
    rewrite (Sprintf_plain lit _ _ Hlit).
    change ("%v" +:+ template pieces last)
      with (String "%" (String "v" (template pieces last))).
    by rewrite Sprintf_verb_v, IH, printArg_v.
Qed.

(** C6.  For an error [err] that renders as [text], [Wrap(err, message)]
    returns a new error [w] that renders as ["<message>: <text>"]; [err]
    is what [w] unwraps to, [errors.Is(w, err)] is true, and the chain of
    [w] is [w] followed by the chain of [err].  [Wrapf] is [Wrap] with
    the message [fmt.Sprintf] builds from the format and the operands,
    each operand taking the place of its verb, in order. *)
Theorem Wrap_renders_and_reaches (h : V1.heap) (err : loc)
    (text message : string) (fuel : nat) :
  V1.Error h err = Ok text → 1 < fuel →
  (∃ (w : loc) h', V1.Wrap (Some err) message h = Ok (Some (addr w), h')
           ∧ V1.Error h' w = Ok (message +:+ ": " +:+ text)
           ∧ V1.Error h' err = Ok text
           ∧ (V1.obj_Unwrap <$> (h' !! w : option V1.obj)) = Some (Some (addr err))
           ∧ V1.errors_Is fuel h' (Some w) (Some err) = Ok true
           ∧ (∀ ls, chain V1.obj_Unwrap h (Some err) ls →
                    chain V1.obj_Unwrap h' (Some w) (w :: ls)))
  ∧ (∀ format args formatted,
       Sprintf format args = Some formatted →
       V1.Wrapf (Some err) format args h = V1.Wrap (Some err) formatted h)
  ∧ (∀ pieces last,
       Forall (λ p, plain p.1 = true) pieces → plain last = true →
       V1.Wrapf (Some err) (template pieces last) (pieces.*2) h
       = V1.Wrap (Some err) (filled pieces last) h).
Proof.
  intros Herr Hfuel. split.
  - set (o := V1.wrapError (message +:+ ": " +:+ text) (Some err)).
    assert (err < length h) as Hlen.
    { unfold V1.Error in Herr. destruct (h !! err) eqn:He; [|done].
      by eapply lookup_lt_Some. }
    exists (length h), (h ++ [o]). split; [|split; [|split; [|split; [|split]]]].
    + unfold V1.Wrap, V1.Errorf_s_w, mbind, go_mbind, go_bind, reading.
      by rewrite Herr.
    + unfold V1.Error. by rewrite alloc_lookup.
    + unfold V1.Error in *. by rewrite lookup_app_l.
    + by rewrite alloc_lookup.
    + destruct fuel as [|[|fuel]]; [lia|lia|].
      cbn [V1.errors_Is]. rewrite bool_decide_addr.
      rewrite bool_decide_eq_false_2 by lia.
      rewrite alloc_lookup. simpl. by rewrite bool_decide_eq_true_2.
    + intros ls Hls. eapply chain_cons; [apply alloc_lookup|].
      simpl. by apply chain_alloc.
  - split.
    + intros format args formatted Hf. unfold V1.Wrapf. by rewrite Hf.
    + intros pieces last Hpieces Hlast. unfold V1.Wrapf.
      by rewrite (Sprintf_in_order pieces last Hpieces Hlast).
Qed.

(** ** The sample stores *)

Lemma v1_sample_built : V1.run v1_sample_calls [] = Ok ((), v1_sample).
Proof. vm_compute. reflexivity. Qed.

Lemma root_sample_built : Root.run root_sample_calls [] = Ok ((), root_sample).
Proof. vm_compute. reflexivity. Qed.

Lemma v1_sample_wf : heap_wf V1.obj_Unwrap v1_sample.
Proof. apply check_wf_sound. reflexivity. Qed.

Lemma root_sample_wf : heap_wf Root.obj_Unwrap root_sample.
Proof. apply check_wf_sound. reflexivity. Qed.

(** ** The theorems at the sample stores *)

Lemma Error_layout_witness :
  (∃ s, V1.Error v1_sample 4 = Ok s
        ∧ s = "[validation:invalid_email] Invalid email format: Must contain @ symbol")
  ∧ (∃ s, Root.Error 2 root_sample 1 = Ok s
          ∧ s = "[ExternalError] failed to connect to API: connection timeout").
Proof.
  destruct Error_layout as [HV1 HRoot]. split.
  - destruct (HV1 v1_sample 4 v1_sample_email) as (s & Hs & Heq & _);
      [reflexivity|].
    exists s. split; [exact Hs|]. rewrite Heq. reflexivity.
  - destruct (HRoot root_sample 1 root_sample_api) as (s & Hs & Hcause & _);
      [apply heap_wf_ordered, check_wf_sound; reflexivity|reflexivity|].
    exists s. split; [apply Hs; lia|].
    simpl in Hcause. destruct Hcause as (text & Htext & ->).
    specialize (Htext 1 ltac:(lia)). simpl in Htext.
    injection Htext as <-. reflexivity.
Defined.

Lemma IsRetryable_total_witness : V1.IsRetryable 6 v1_sample (Some (addr 2)) = Ok true.
Proof.
  destruct (IsRetryable_total v1_sample (Some (addr 2)) 6)
    as [(ls & last & Hr & HIs & _) _].
  - apply heap_wf_ordered, check_wf_sound. reflexivity.
  - reflexivity.
  - simpl. lia.
  - rewrite HIs.
    destruct (reaches_functional V1.obj_Unwrap v1_sample (Some (addr 2))
                ls [2; 1; 0] last None Hr) as [-> ->].
    + apply chain_reaches, (walk_chain V1.obj_Unwrap 3). reflexivity.
    + reflexivity.
Defined.

Lemma Is_compares_kind_and_code_witness :
  ∃ b, V1.ManagedError_Is 1 v1_sample 1 (Some 4) = Ok b
       ∧ (b = true ↔ V1.Type_ v1_sample_db = V1.Type_ v1_sample_email
                     ∧ V1.Code v1_sample_db = V1.Code v1_sample_email).
Proof.
  apply (Is_compares_kind_and_code v1_sample 1 4 v1_sample_db v1_sample_email 1).
  - reflexivity.
  - reflexivity.
  - lia.
Defined.

Lemma GetContext_absent_or_first_witness :
  V1.GetContext 5 v1_sample (Some (addr 3)) = Ok None
  ∧ V1.GetContext 5 v1_sample (Some (addr 3)) ≠ Ok (Some ∅).
Proof.
  destruct (GetContext_absent_or_first v1_sample (Some (addr 3)) 5)
    as (ls & last & Hr & _ & _ & _ & Habsent & _).
  - apply heap_wf_ordered, check_wf_sound. reflexivity.
  - reflexivity.
  - simpl. lia.
  - destruct (reaches_functional V1.obj_Unwrap v1_sample (Some (addr 3))
                ls [3] last None Hr) as [-> ->].
    + apply chain_reaches, (walk_chain V1.obj_Unwrap 1). reflexivity.
    + apply Habsent; reflexivity.
Defined.

Lemma Wrap_renders_and_reaches_witness :
  ∃ (w : loc) h',
    V1.Wrap (Some 3) "failed to read configuration" v1_sample = Ok (Some (addr w), h')
    ∧ V1.Error h' w = Ok "failed to read configuration: file not found"
    ∧ V1.errors_Is 2 h' (Some w) (Some 3) = Ok true.
Proof.
  destruct (Wrap_renders_and_reaches v1_sample 3 "file not found"
              "failed to read configuration" 2)
    as [(w & h' & Hw & Hrender & _ & _ & Hreach & _) _].
  - reflexivity.
  - lia.
  - exists w, h'. split; [exact Hw|]. split; [exact Hrender|exact Hreach].
Defined.

Lemma context_always_initialised_witness : V1.context_initialised v1_sample.
Proof.
  destruct context_always_initialised as (_ & _ & _ & _ & Hrun & _).
  apply (Hrun v1_sample_calls). vm_compute. reflexivity.
Defined.

Lemma WithContext_last_write_wins_witness :
  (∃ h' m' c',
     (e1 ← V1.WithContext 4 "email" "a@b"; V1.WithContext e1 "email" "c@d") v1_sample
     = Ok (4, h')
     ∧ h' !! 4 = Some (V1.Managed m') ∧ V1.Context m' = Some c'
     ∧ c' !! "email" = Some "c@d"
     ∧ filter (λ kv, kv.1 = "email") (map_to_list c') = [("email", "c@d")])
  ∧ (∃ h' m' c',
       (e1 ← Root.WithContext 1 "userId" (AnyInt 7);
        Root.WithContext e1 "userId" (AnyString "u-7")) root_sample
       = Ok (1, h')
       ∧ h' !! 1 = Some (Root.Managed m') ∧ Root.Context m' = Some c'
       ∧ c' !! "userId" = Some (AnyString "u-7")
       ∧ filter (λ kv, kv.1 = "userId") (map_to_list c')
         = [("userId", AnyString "u-7")]).
Proof.
  destruct WithContext_last_write_wins as [HV1 HRoot]. split.
  - destruct (HV1 v1_sample 4 v1_sample_email "email" "a@b" "c@d")
      as (h' & m' & c' & Hrun & Hm & Hc & Hkey & Hone & _); [reflexivity|].
    by exists h', m', c'.
  - destruct (HRoot root_sample 1 root_sample_api
                (<["userId" := AnyInt 123]> ∅) "userId" (AnyInt 7)
                (AnyString "u-7"))
      as (h' & m' & c' & Hrun & Hm & Hc & Hkey & Hone & _);
      [reflexivity|reflexivity|].
    by exists h', m', c'.
Defined.



(** ** The repository's own tests and examples, run through the model *)

(** [ExampleNewError] and the README's quick start. *)
Example v1_ExampleNewError :
  evaluate (e ← V1.NewError V1.ValidationError "invalid_email" "Email format is invalid";
            e ← V1.WithDetails e "Email must contain @ symbol";
            e ← V1.WithContext e "field" "email";
            e ← V1.WithStatusCode e 400;
            reading (λ h, V1.Error h e))
  = Ok "[validation:invalid_email] Email format is invalid: Email must contain @ symbol".
Proof. vm_compute. reflexivity. Qed.

(** [ExampleNewErrorWithCause]: the cause is not part of the text. *)
Example v1_ExampleNewErrorWithCause :
  evaluate (dbErr ← V1.errors_New "connection timeout";
            e ← V1.NewErrorWithCause V1.SystemError "db_connection_failed"
                  "Failed to connect to database" dbErr;
            e ← V1.WithRetryable e true;
            e ← V1.WithContext e "database" "users_db";
            text ← reading (λ h, V1.Error h e);
            retry ← reading (λ h, V1.IsRetryable 2 h (Some (addr e)));
            mret (text, retry))
  = Ok ("[system:db_connection_failed] Failed to connect to database", true).
Proof. vm_compute. reflexivity. Qed.

(** [TestIsRetryable] and [TestGetContext] on [errors.New("regular error")]. *)
Example v1_Test_regular_error :
  evaluate (regularErr ← V1.errors_New "regular error";
            retry ← reading (λ h, V1.IsRetryable 2 h regularErr);
            ctx ← reading (λ h, V1.GetContext 2 h regularErr);
            mret (retry, ctx))
  = Ok (false, None).
Proof. vm_compute. reflexivity. Qed.

(** [TestWrap]. *)
Example v1_TestWrap :
  evaluate (originalErr ← V1.errors_New "original error";
            wrappedErr ← V1.Wrap originalErr "additional context";
            found ← reading (λ h, V1.errors_Is 3 h wrappedErr originalErr);
            text ← reading (λ h, match wrappedErr with
                                 | Some (addr w) => V1.Error h w
                                 | _ => Stuck
                                 end);
            mret (found, text))
  = Ok (true, "additional context: original error").
Proof. vm_compute. reflexivity. Qed.

(** [TestWrapf]. *)
Example v1_TestWrapf :
  evaluate (originalErr ← V1.errors_New "connection failed";
            wrappedErr ← V1.Wrapf originalErr "failed to connect to %s:%d"
                           [AnyString "localhost"; AnyInt 5432];
            found ← reading (λ h, V1.errors_Is 3 h wrappedErr originalErr);
            text ← reading (λ h, match wrappedErr with
                                 | Some (addr w) => V1.Error h w
                                 | _ => Stuck
                                 end);
            mret (found, text))
  = Ok (true, "failed to connect to localhost:5432: connection failed").
Proof. vm_compute. reflexivity. Qed.

(** [TestManagedErrorIs]: same kind and code, other kind, other code, and
    the underlying cause. *)
Example v1_TestManagedErrorIs :
  evaluate (err1 ← V1.NewError V1.ValidationError "invalid_email" "Invalid email";
            err2 ← V1.NewError V1.ValidationError "invalid_email" "Different message";
            err3 ← V1.NewError V1.BusinessError "invalid_email" "Invalid email";
            err4 ← V1.NewError V1.ValidationError "invalid_phone" "Invalid phone";
            cause ← V1.errors_New "underlying error";
            err5 ← V1.NewErrorWithCause V1.SystemError "db_error" "Database error" cause;
            b12 ← reading (λ h, V1.errors_Is 3 h (Some (addr err1)) (Some (addr err2)));
            b13 ← reading (λ h, V1.errors_Is 3 h (Some (addr err1)) (Some (addr err3)));
            b14 ← reading (λ h, V1.errors_Is 3 h (Some (addr err1)) (Some (addr err4)));
            b5c ← reading (λ h, V1.errors_Is 3 h (Some (addr err5)) cause);
            mret [b12; b13; b14; b5c])
  = Ok [true; false; false; true].
Proof. vm_compute. reflexivity. Qed.

(** [Wrap] of a nil error wraps nothing. *)
Example v1_Wrap_nil :
  evaluate (w ← V1.Wrap None "failed";
            text ← reading (λ h, match w with
                                 | Some (addr w) => V1.Error h w
                                 | _ => Stuck
                                 end);
            found ← reading (λ h, V1.errors_Is 3 h w None);
            mret (text, found))
  = Ok ("failed: %!w(<nil>)", false).
Proof. vm_compute. reflexivity. Qed.

(** The text of a wrapper is fixed when it is built. *)
Example v1_Wrap_snapshot :
  evaluate (e ← V1.NewError V1.ValidationError "weak_password" "Password too weak";
            w ← V1.Wrap (Some (addr e)) "signup";
            e ← V1.WithDetails e "at least 8 characters";
            inner ← reading (λ h, V1.Error h e);
            outer ← reading (λ h, match w with
                                  | Some (addr w) => V1.Error h w
                                  | _ => Stuck
                                  end);
            mret (inner, outer))
  = Ok ("[validation:weak_password] Password too weak: at least 8 characters",
        "signup: [validation:weak_password] Password too weak").
Proof. vm_compute. reflexivity. Qed.

(** [TestManagedError_Error] of the root package. *)
Example root_TestManagedError_Error :
  evaluate (plain ← Root.New Root.ValidationError "validation failed";
            original ← Root.errors_New "original";
            wrapped ← Root.Wrap original Root.InternalError "internal error";
            t1 ← reading (λ h, Root.Error 3 h plain);
            t2 ← reading (λ h, Root.Error 3 h wrapped);
            mret (t1, t2))
  = Ok ("[ValidationError] validation failed",
        "[InternalError] internal error: original").
Proof. vm_compute. reflexivity. Qed.

(** [TestManagedError_Unwrap] and [TestManagedError_WithContext]. *)
Example root_TestManagedError_Unwrap_WithContext :
  evaluate (original ← Root.errors_New "original error";
            wrapped ← Root.Wrap original Root.InternalError "wrapped";
            fresh ← Root.New Root.ValidationError "test error";
            fresh ← Root.WithContext fresh "userId" (AnyInt 123);
            fresh ← Root.WithContext fresh "field" (AnyString "email");
            u1 ← reading (λ h, Root.Unwrap h wrapped);
            u2 ← reading (λ h, Root.Unwrap h fresh);
            c1 ← reading (λ h, Root.GetContext h fresh "userId");
            c2 ← reading (λ h, Root.GetContext h fresh "nonexistent");
            mret (bool_decide (u1 = original), u2, c1, c2))
  = Ok (true, None, (AnyInt 123, true), (AnyNil, false)).
Proof. vm_compute. reflexivity. Qed.

(** [TestErrorType_String]: an unknown kind has a name too. *)
Example root_TestErrorType_String :
  Root.ErrorType_String Root.ExternalError = "ExternalError"
  ∧ Root.ErrorType_String 999%Z = "UnknownError".
Proof. split; reflexivity. Qed.

(** A [ManagedError] built as a literal, without [make]: the root
    [WithContext] panics on it, the one of [v1] allocates the map. *)
Example WithContext_on_nil_map :
  Root.WithContext 0 "k" (AnyString "v")
    [Root.Managed {| Root.Type_ := Root.InternalError; Root.Message := "m";
                     Root.Cause := None; Root.Context := None |}]
  = Panic "assignment to entry in nil map"
  ∧ ∃ h' m', V1.WithContext 0 "k" "v"
               [V1.Managed (V1.set_Context None v1_sample_email)] = Ok (0, h')
             ∧ h' !! 0 = Some (V1.Managed m')
             ∧ V1.Context m' = Some (<["k" := "v"]> ∅).
Proof. split; [reflexivity|]. eexists _, _. repeat split. Qed.

(** ** Stores built through the API *)



(** * Further properties of the code *)

(** ** [IsType] of package [v1] *)



(** ** [Wrap] and [Wrapf] leave the classification visible *)

Lemma v1_first_managed_alloc (h : V1.heap) (o : V1.obj) (ls : list loc) :
  Forall (λ l, l < length h) ls →
  V1.first_managed (h ++ [o]) ls = V1.first_managed h ls.
Proof.
  induction 1 as [|l ls Hl _ IH]; simpl; [done|].
  rewrite lookup_app_l by done. by rewrite IH.
Qed.

Lemma v1_Errorf_shape (h h' : V1.heap) (message : string) (err r : error) :
  V1.Errorf_s_w message err h = Ok (r, h') →
  r = Some (addr (length h))
  ∧ ∃ text, h' = h ++ [match err with
                       | Some _ => V1.wrapError text err
                       | None => V1.errorString text
                       end]
            ∧ match err with
              | Some (addr e) =>
                  ∃ t, V1.Error h e = Ok t ∧ text = message +:+ ": " +:+ t
              | Some nilManagedError => text = message +:+ ": <nil>"
              | None => text = message +:+ ": %!w(<nil>)"
              end.
Proof.
  intros Hrun. destruct err as [[e|]|]; simpl in Hrun.
  - unfold mbind, go_mbind, go_bind, reading in Hrun.
    destruct (V1.Error h e) as [t| | |] eqn:He; try discriminate.
    injection Hrun as <- <-. split; [done|]. eexists. split; [done|].
    by exists t.
  - injection Hrun as <- <-. split; [done|]. by eexists.
  - injection Hrun as <- <-. split; [done|]. by eexists.
Qed.

(** X2.  An error returned by [Wrap] or [Wrapf] answers [IsRetryable],
    [GetContext] and [IsType] exactly as the error it was built from
    (nil included): the wrapper is not a managed error, so the walk goes
    on to the wrapped chain. *)
Theorem v1_Wrap_transparent (h h' : V1.heap) (err w : error) (ls : list loc)
    (message : string) (fuel : nat) :
  chain V1.obj_Unwrap h err ls →
  (V1.Wrap err message h = Ok (w, h')
   ∨ ∃ format args, V1.Wrapf err format args h = Ok (w, h')) →
  length ls < fuel →
  (∃ b, V1.IsRetryable fuel h err = Ok b ∧ V1.IsRetryable fuel h' w = Ok b)
  ∧ (∃ c, V1.GetContext fuel h err = Ok c ∧ V1.GetContext fuel h' w = Ok c)
  ∧ (∀ errType, ∃ b, V1.IsType fuel h err errType = Ok b
                     ∧ V1.IsType fuel h' w errType = Ok b).
Proof.
  intros Hch Hwrap Hfuel.
  assert (∃ msg, V1.Errorf_s_w msg err h = Ok (w, h')) as [msg Hrun].
  { destruct Hwrap as [Hw|(format & args & Hw)]; [by exists message|].
    unfold V1.Wrapf in Hw. destruct (Sprintf format args) as [msg|]; [|done].
    by exists msg. }
  apply v1_Errorf_shape in Hrun as (-> & text & -> & Htext).
  pose proof (chain_in_store V1.obj_Unwrap h err ls Hch) as Hin.
  set (o := match err with
            | Some _ => V1.wrapError text err
            | None => V1.errorString text
            end).
  assert (chain V1.obj_Unwrap (h ++ [o]) (Some (length h)) (length h :: ls)) as Hch'.
  { eapply chain_cons; [apply alloc_lookup|].
    replace (V1.obj_Unwrap o) with err.
    - by apply chain_alloc.
    - subst o. destruct err; [done|]. by inversion Hch. }
  assert (V1.first_managed (h ++ [o]) (length h :: ls) = V1.first_managed h ls)
    as Hfirst.
  { simpl. rewrite alloc_lookup.
    rewrite <- (v1_first_managed_alloc h o ls Hin). subst o. by destruct err. }
  assert (∀ (A : Type) (field : V1.ManagedError → A) (d : A),
            ∃ a, (found ← V1.errors_As fuel h err; V1.found_field h found field d)
                 = Ok a
                 ∧ (found ← V1.errors_As fuel (h ++ [o]) (Some (length h));
                    V1.found_field (h ++ [o]) found field d) = Ok a) as Hboth.
  { intros A field d. eexists. split.
    - apply (v1_As_field h err ls); [done|lia].
    - rewrite (v1_As_field (h ++ [o]) (Some (length h)) (length h :: ls) fuel
                 field d Hch') by (simpl; lia).
      by rewrite Hfirst. }
  split; [apply Hboth|]. split; [apply Hboth|].
  intros errType. apply Hboth.
Qed.

Lemma v1_Wrap_transparent_witness :
  ∃ b, V1.IsRetryable 4 v1_sample (Some 1) = Ok b
       ∧ V1.IsRetryable 4 (v1_sample ++ [V1.wrapError
           "retry: [system:db_connection_failed] Failed to connect to database"
           (Some 1)]) (Some 5) = Ok b.
Proof.
  refine (proj1 (v1_Wrap_transparent v1_sample _ (Some 1) (Some 5) [1; 0]
                   "retry" 4 _ _ _)).
  - apply (walk_chain V1.obj_Unwrap 2). reflexivity.
  - left. reflexivity.
  - simpl. lia.
Defined.

(** ** A managed error hides what its cause would answer *)

(** X3.  An error fresh from [NewErrorWithCause] answers for itself, not
    for its cause: [IsRetryable] is false, [IsType] compares with the kind
    just given, and [GetContext] is the new empty map, also when the cause
    is a retryable managed error of another kind with a context. *)
Theorem v1_outer_error_answers (h : V1.heap) (t : V1.ErrorType)
    (code message : string) (cause : error) (fuel : nat) :
  0 < fuel →
  ∃ (e : loc) h', V1.NewErrorWithCause t code message cause h = Ok (e, h')
          ∧ V1.IsRetryable fuel h' (Some e) = Ok false
          ∧ (∀ errType, V1.IsType fuel h' (Some e) errType
                        = Ok (bool_decide (t = errType)))
          ∧ V1.GetContext fuel h' (Some e) = Ok (Some ∅).
Proof.
  intros Hfuel. destruct fuel as [|fuel]; [lia|].
  eexists _, _. split; [reflexivity|].
  unfold V1.IsRetryable, V1.IsType, V1.GetContext, V1.found_field.
  cbn [V1.errors_As]. rewrite alloc_lookup. simpl. rewrite alloc_lookup.
  done.
Qed.

Lemma v1_outer_error_answers_witness :
  ∃ (e : loc) h', V1.NewErrorWithCause V1.ValidationError "bad_request" "Bad request"
            (Some 1) v1_sample = Ok (e, h')
          ∧ V1.IsRetryable 1 h' (Some e) = Ok false
          ∧ (∀ errType, V1.IsType 1 h' (Some e) errType
                        = Ok (bool_decide (V1.ValidationError = errType)))
          ∧ V1.GetContext 1 h' (Some e) = Ok (Some ∅).
Proof.
  apply (v1_outer_error_answers v1_sample V1.ValidationError "bad_request"
           "Bad request" (Some 1) 1).
  lia.
Defined.

(** ** [errors.Is] along a chain *)







(** ** [Is] as a relation between managed errors *)

Lemma v1_Is_managed_target (h : V1.heap) (e t : loc) (me mt : V1.ManagedError)
    (fuel : nat) :
  h !! e = Some (V1.Managed me) → h !! t = Some (V1.Managed mt) → 0 < fuel →
  V1.ManagedError_Is fuel h e (Some t) = Ok (v1_matches me mt).
Proof.
  intros He Ht Hfuel. destruct fuel as [|fuel]; [lia|].
  unfold V1.ManagedError_Is, V1.ManagedError_Is_body. rewrite He.
  simpl. rewrite Ht. simpl. by rewrite Ht.
Qed.

(** X5.  Between managed errors [Is] is an equivalence relation: every
    managed error [Is] itself, [a.Is(b)] and [b.Is(a)] agree, and from
    [a.Is(b)] and [b.Is(c)] follows [a.Is(c)]. *)
Theorem v1_Is_equivalence (h : V1.heap) (a b c : loc)
    (ma mb mc : V1.ManagedError) (fuel : nat) :
  h !! a = Some (V1.Managed ma) → h !! b = Some (V1.Managed mb) →
  h !! c = Some (V1.Managed mc) → 0 < fuel →
  V1.ManagedError_Is fuel h a (Some a) = Ok true
  ∧ V1.ManagedError_Is fuel h a (Some b) = V1.ManagedError_Is fuel h b (Some a)
  ∧ (V1.ManagedError_Is fuel h a (Some b) = Ok true →
     V1.ManagedError_Is fuel h b (Some c) = Ok true →
     V1.ManagedError_Is fuel h a (Some c) = Ok true).
Proof.
  intros Ha Hb Hc Hfuel.
  rewrite (v1_Is_managed_target h a a ma ma fuel Ha Ha Hfuel).
  rewrite (v1_Is_managed_target h a b ma mb fuel Ha Hb Hfuel).
  rewrite (v1_Is_managed_target h b a mb ma fuel Hb Ha Hfuel).
  rewrite (v1_Is_managed_target h b c mb mc fuel Hb Hc Hfuel).
  rewrite (v1_Is_managed_target h a c ma mc fuel Ha Hc Hfuel).
  unfold v1_matches. split; [|split].
  - by rewrite !bool_decide_eq_true_2.
  - f_equal. f_equal; apply bool_decide_ext; split; congruence.
  - intros [= Hab] [= Hbc]. f_equal.
    apply andb_true_iff in Hab as [H1 H2]. apply andb_true_iff in Hbc as [H3 H4].
    apply bool_decide_eq_true in H1, H2, H3, H4.
    apply andb_true_iff. split; apply bool_decide_eq_true; congruence.
Qed.

Lemma v1_Is_equivalence_witness :
  V1.ManagedError_Is 1 v1_sample 1 (Some 1) = Ok true
  ∧ V1.ManagedError_Is 1 v1_sample 1 (Some 4) = V1.ManagedError_Is 1 v1_sample 4 (Some 1)
  ∧ (V1.ManagedError_Is 1 v1_sample 1 (Some 4) = Ok true →
     V1.ManagedError_Is 1 v1_sample 4 (Some 1) = Ok true →
     V1.ManagedError_Is 1 v1_sample 1 (Some 1) = Ok true).
Proof.
  apply (v1_Is_equivalence v1_sample 1 4 1 v1_sample_db v1_sample_email
           v1_sample_db 1); [reflexivity|reflexivity|reflexivity|lia].
Defined.


(** ** What the setters of [v1] leave alone *)

Lemma v1_errors_As_write (h : V1.heap) (e : loc) (m m' : V1.ManagedError) :
  h !! e = Some (V1.Managed m) → V1.Cause m' = V1.Cause m →
  ∀ fuel err, V1.errors_As fuel (<[e := V1.Managed m']> h) err
              = V1.errors_As fuel h err.
Proof.
  intros He Hcause fuel.
  induction fuel as [|fuel IH]; intros [[l|]|]; simpl; try done.
  destruct (decide (e = l)) as [<-|Hne].
  - rewrite list_lookup_insert_eq by (by eapply lookup_lt_Some). by rewrite He.
  - rewrite list_lookup_insert_ne by done.
    destruct (h !! l) as [[s|msg err|m0]|]; try done; apply IH.
Qed.

Lemma v1_mutate_shape (mu : V1.mutation) (h h' : V1.heap) (e e' : loc) :
  V1.mutate e mu h = Ok (e', h') →
  ∃ m m', h !! e = Some (V1.Managed m) ∧ e' = e
          ∧ h' = <[e := V1.Managed m']> h
          ∧ V1.Cause m' = V1.Cause m ∧ V1.Message m' = V1.Message m
          ∧ V1.Type_ m' = V1.Type_ m ∧ V1.Code m' = V1.Code m
          ∧ ((∀ d, mu ≠ V1.SetDetails d) → V1.Details m' = V1.Details m).
Proof.
  intros Hrun.
  destruct (h !! e) as [[s|msg err|m]|] eqn:He;
    try (destruct mu; simpl in Hrun;
         unfold V1.WithDetails, V1.WithContext, V1.WithRetryable,
           V1.WithStatusCode, V1.through in Hrun;
         rewrite He in Hrun; discriminate).
  exists m. destruct mu; simpl in Hrun;
    unfold V1.WithDetails, V1.WithContext, V1.WithRetryable,
      V1.WithStatusCode, V1.through in Hrun;
    rewrite He in Hrun; injection Hrun as <- <-;
    eexists; repeat split; try done.
  intros Hd. by destruct (Hd details).
Qed.

(** What each setter stores in its receiver, field by field. *)
Lemma v1_mutate_fields (mu : V1.mutation) (h h' : V1.heap) (e e' : loc) :
  V1.mutate e mu h = Ok (e', h') →
  ∃ m m', h !! e = Some (V1.Managed m) ∧ h' !! e = Some (V1.Managed m')
          ∧ match mu with
            | V1.SetDetails d =>
                V1.Details m' = d ∧ V1.Context m' = V1.Context m
                ∧ V1.Retryable m' = V1.Retryable m
                ∧ V1.StatusCode m' = V1.StatusCode m
            | V1.SetContext k v =>
                V1.Details m' = V1.Details m
                ∧ V1.Context m' = Some (<[k := v]> (default ∅ (V1.Context m)))
                ∧ V1.Retryable m' = V1.Retryable m
                ∧ V1.StatusCode m' = V1.StatusCode m
            | V1.SetRetryable b =>
                V1.Details m' = V1.Details m ∧ V1.Context m' = V1.Context m
                ∧ V1.Retryable m' = b
                ∧ V1.StatusCode m' = V1.StatusCode m
            | V1.SetStatusCode n =>
                V1.Details m' = V1.Details m ∧ V1.Context m' = V1.Context m
                ∧ V1.Retryable m' = V1.Retryable m
                ∧ V1.StatusCode m' = n
            end.
Proof.
  intros Hrun.
  destruct (v1_mutate_shape mu h h' e e' Hrun) as (m & _ & He & _).
  exists m.
  destruct mu; simpl in Hrun;
    unfold V1.WithDetails, V1.WithContext, V1.WithRetryable,
      V1.WithStatusCode, V1.through in Hrun;
    rewrite He in Hrun; injection Hrun as <- <-;
    eexists; (split; [done|]);
    (split; [apply list_lookup_insert_eq; by eapply lookup_lt_Some|]);
    simpl; by destruct (V1.Context m).
Qed.

(** X7.  A fluent setter returns its receiver and writes one field of one
    object.  The store keeps its size and every other object of it is
    untouched.  In the receiver the field named by the setter holds the
    value given ([WithContext] stores the old map with the key set, a new
    map when the old one was nil), and every other field is as before:
    kind, code, message and cause cannot be changed through the setters,
    [WithDetails] included.  So [Unwrap] and [IsType] answer as before for
    every error, and so does [Error] unless the setter was
    [WithDetails]. *)
Theorem v1_setters_frame (mu : V1.mutation) (h h' : V1.heap) (e e' : loc) :
  V1.mutate e mu h = Ok (e', h') →
  e' = e
  ∧ length h' = length h
  ∧ (∀ l, l ≠ e → h' !! l = h !! l)
  ∧ (∃ m m', h !! e = Some (V1.Managed m) ∧ h' !! e = Some (V1.Managed m')
             ∧ V1.Type_ m' = V1.Type_ m ∧ V1.Code m' = V1.Code m
             ∧ V1.Message m' = V1.Message m ∧ V1.Cause m' = V1.Cause m
             ∧ match mu with
               | V1.SetDetails d =>
                   V1.Details m' = d ∧ V1.Context m' = V1.Context m
                   ∧ V1.Retryable m' = V1.Retryable m
                   ∧ V1.StatusCode m' = V1.StatusCode m
               | V1.SetContext k v =>
                   V1.Details m' = V1.Details m
                   ∧ V1.Context m' = Some (<[k := v]> (default ∅ (V1.Context m)))
                   ∧ V1.Retryable m' = V1.Retryable m
                   ∧ V1.StatusCode m' = V1.StatusCode m
               | V1.SetRetryable b =>
                   V1.Details m' = V1.Details m ∧ V1.Context m' = V1.Context m
                   ∧ V1.Retryable m' = b
                   ∧ V1.StatusCode m' = V1.StatusCode m
               | V1.SetStatusCode n =>
                   V1.Details m' = V1.Details m ∧ V1.Context m' = V1.Context m
                   ∧ V1.Retryable m' = V1.Retryable m
                   ∧ V1.StatusCode m' = n
               end)
  ∧ (∀ l, V1.Unwrap h' l = V1.Unwrap h l)
  ∧ (∀ fuel err errType, V1.IsType fuel h' err errType = V1.IsType fuel h err errType)
  ∧ ((∀ d, mu ≠ V1.SetDetails d) → ∀ l, V1.Error h' l = V1.Error h l).
Proof.
  intros Hrun.
  destruct (v1_mutate_fields mu h h' e e' Hrun) as (m0 & m0' & He0 & He0' & Hfields).
  destruct (v1_mutate_shape mu h h' e e' Hrun)
    as (m & m' & He & -> & -> & Hcause & Hmsg & Htype & Hcode & Hdetails).
  assert (e < length h) as Hlen by (by eapply lookup_lt_Some).
  split; [done|]. split; [by rewrite length_insert|].
  split; [|split; [|split; [|split]]].
  - intros l Hl. by rewrite list_lookup_insert_ne.
  - exists m, m'. rewrite He in He0. injection He0 as <-.
    rewrite list_lookup_insert_eq in He0' by done. injection He0' as <-.
    rewrite list_lookup_insert_eq by done. done.
  - intros l. unfold V1.Unwrap. destruct (decide (e = l)) as [<-|Hne].
    + rewrite list_lookup_insert_eq, He by done. by rewrite Hcause.
    + by rewrite list_lookup_insert_ne.
  - intros fuel err errType. unfold V1.IsType.
    rewrite (v1_errors_As_write h e m m' He Hcause).
    destruct (V1.errors_As fuel h err) as [[[l|]|]| | |]; simpl; try done.
    unfold V1.found_field. destruct (decide (e = l)) as [<-|Hne].
    + rewrite list_lookup_insert_eq, He by done. by rewrite Htype.
    + by rewrite list_lookup_insert_ne.
  - intros Hmu l. unfold V1.Error. destruct (decide (e = l)) as [<-|Hne].
    + rewrite list_lookup_insert_eq, He by done.
      unfold V1.ManagedError_Error.
      by rewrite (Hdetails Hmu), Hmsg, Htype, Hcode.
    + by rewrite list_lookup_insert_ne.
Qed.

Lemma v1_setters_frame_witness :
  ∃ h', V1.mutate 1 (V1.SetStatusCode 503) v1_sample = Ok (1, h')
        ∧ (∀ l, l ≠ 1 → h' !! l = v1_sample !! l)
        ∧ (∃ m', h' !! 1 = Some (V1.Managed m')
                 ∧ V1.StatusCode m' = 503%Z
                 ∧ V1.Code m' = "db_connection_failed"
                 ∧ V1.Message m' = "Failed to connect to database"
                 ∧ V1.Retryable m' = true)
        ∧ (∀ l, V1.Error h' l = V1.Error v1_sample l).
Proof.
  eexists. split; [reflexivity|].
  destruct (v1_setters_frame (V1.SetStatusCode 503) v1_sample _ 1 1 eq_refl)
    as (_ & _ & Hothers & (m & m' & Hm & Hm' & _ & Hcode & Hmsg & _ & Hfields)
        & _ & _ & Herror).
  split; [exact Hothers|]. split.
  - exists m'. injection Hm as <-.
    destruct Hfields as (_ & _ & Hretry & Hstatus).
    split; [exact Hm'|]. split; [exact Hstatus|].
    split; [exact Hcode|]. split; [exact Hmsg|exact Hretry].
  - apply Herror. intros d. discriminate.
Defined.

(** ** [WithDetails] *)

(** X8.  After [WithDetails(d)] a managed error renders as its headline
    ["[<kind>:<code>] <message>"] followed by [": <d>"]; with the empty
    string the suffix is dropped again, and only the last of several
    [WithDetails] calls counts. *)
Theorem v1_WithDetails_renders (h : V1.heap) (e : loc) (m : V1.ManagedError)
    (d : string) :
  h !! e = Some (V1.Managed m) →
  ∃ h', V1.WithDetails e d h = Ok (e, h')
        ∧ V1.Error h' e
          = Ok (if bool_decide (d = "") then v1_headline m
                else v1_headline m +:+ ": " +:+ d)
        ∧ ∀ d0, (e1 ← V1.WithDetails e d0; V1.WithDetails e1 d) h = Ok (e, h').
Proof.
  intros He.
  destruct (v1_through_ok h e m (V1.set_Details d) He) as [Hrun Hlook].
  eexists. split; [exact Hrun|]. split.
  - unfold V1.Error, V1.ManagedError_Error, v1_headline. rewrite Hlook. simpl.
    destruct (decide (d = "")) as [->|Hd].
    + done.
    + rewrite (bool_decide_eq_true_2 _ Hd), (bool_decide_eq_false_2 _ Hd).
      by repeat (rewrite !append_assoc; simpl).
  - intros d0.
    destruct (v1_through_ok h e m (V1.set_Details d0) He) as [Hrun0 Hlook0].
    destruct (v1_through_ok _ e _ (V1.set_Details d) Hlook0) as [Hrun1 _].
    unfold mbind, go_mbind, go_bind, V1.WithDetails. rewrite Hrun0, Hrun1.
    by rewrite list_insert_insert_eq.
Qed.

Lemma v1_WithDetails_renders_witness :
  ∃ h', V1.WithDetails 4 "" v1_sample = Ok (4, h')
        ∧ V1.Error h' 4 = Ok "[validation:invalid_email] Invalid email format".
Proof.
  destruct (v1_WithDetails_renders v1_sample 4 v1_sample_email "")
    as (h' & Hrun & Herror & _); [reflexivity|].
  exists h'. split; [exact Hrun|exact Herror].
Defined.

(** ** Reading back what a setter wrote *)

Lemma v1_through_read_back {A : Type} (h : V1.heap) (err : error)
    (ls : list loc) (e : loc) (f : V1.ManagedError → V1.ManagedError)
    (field : V1.ManagedError → A) (d : A) (fuel : nat) :
  chain V1.obj_Unwrap h err ls → V1.find_managed h ls = Some e →
  (∀ m, V1.Cause (f m) = V1.Cause m) → length ls ≤ fuel →
  ∃ m, h !! e = Some (V1.Managed m)
       ∧ V1.through e f h = Ok (e, <[e := V1.Managed (f m)]> h)
       ∧ (found ← V1.errors_As fuel h err; V1.found_field h found field d)
         = Ok (field m)
       ∧ (found ← V1.errors_As fuel (<[e := V1.Managed (f m)]> h) err;
          V1.found_field (<[e := V1.Managed (f m)]> h) found field d)
         = Ok (field (f m)).
Proof.
  intros Hch Hfind Hcause Hfuel.
  pose proof (v1_find_first h ls) as Hff. rewrite Hfind in Hff.
  destruct Hff as (m & He & Hfirst). exists m.
  destruct (v1_through_ok h e m f He) as [Hrun Hlook].
  split; [done|]. split; [done|]. split.
  - rewrite (v1_As_field h err ls fuel field d Hch Hfuel). by rewrite Hfirst.
  - rewrite (v1_errors_As_write h e m (f m) He (Hcause m)).
    rewrite (v1_errors_As_chain h err ls Hch fuel Hfuel), Hfind. simpl.
    unfold V1.found_field. by rewrite Hlook.
Qed.

(** X9.  [WithRetryable(b)] on a managed error [e] is what [IsRetryable]
    then reports, for [e] itself and for every error whose chain reaches
    [e] before any other managed error (a [Wrap] around [e], say). *)
Theorem v1_WithRetryable_read_back (h : V1.heap) (err : error) (ls : list loc)
    (e : loc) (b : bool) (fuel : nat) :
  chain V1.obj_Unwrap h err ls → V1.find_managed h ls = Some e →
  length ls ≤ fuel →
  ∃ h', V1.WithRetryable e b h = Ok (e, h')
        ∧ V1.IsRetryable fuel h' err = Ok b.
Proof.
  intros Hch Hfind Hfuel.
  destruct (v1_through_read_back h err ls e (V1.set_Retryable b) V1.Retryable
              false fuel Hch Hfind) as (m & He & Hrun & _ & Hread); [done|done|].
  eexists. split; [exact Hrun|exact Hread].
Qed.

Lemma v1_WithRetryable_read_back_witness :
  ∃ h', V1.WithRetryable 1 false v1_sample = Ok (1, h')
        ∧ V1.IsRetryable 3 h' (Some 2) = Ok false.
Proof.
  apply (v1_WithRetryable_read_back v1_sample (Some 2) [2; 1; 0] 1 false 3).
  - apply (walk_chain V1.obj_Unwrap 3). reflexivity.
  - reflexivity.
  - simpl. lia.
Defined.

(** X10.  An entry written by [WithContext(key, value)] on a managed
    error [e] is in the map [GetContext] then returns, for [e] itself and
    for every error whose chain reaches [e] before any other managed
    error; the other keys read as [GetContext] had them before. *)
Theorem v1_WithContext_read_back (h : V1.heap) (err : error) (ls : list loc)
    (e : loc) (key value : string) (fuel : nat) :
  chain V1.obj_Unwrap h err ls → V1.find_managed h ls = Some e →
  length ls ≤ fuel →
  ∃ h' c, V1.WithContext e key value h = Ok (e, h')
          ∧ V1.GetContext fuel h' err = Ok (Some c)
          ∧ c !! key = Some value
          ∧ ∀ k c0, k ≠ key → V1.GetContext fuel h err = Ok (Some c0) →
                    c !! k = c0 !! k.
Proof.
  intros Hch Hfind Hfuel.
  destruct (v1_through_read_back h err ls e
              (λ m, V1.set_Context
                      (Some (<[key := value]> match V1.Context m with
                                              | Some c => c
                                              | None => ∅
                                              end)) m)
              V1.Context None fuel Hch Hfind)
    as (m & He & Hrun & Hbefore & Hread); [done|done|].
  eexists _, _. split; [exact Hrun|]. split; [exact Hread|].
  split; [apply lookup_insert_eq|].
  intros k c0 Hk Hget. unfold V1.GetContext in Hget.
  rewrite Hbefore in Hget. injection Hget as ->.
  by rewrite lookup_insert_ne.
Qed.

Lemma v1_WithContext_read_back_witness :
  ∃ h' c, V1.WithContext 1 "host" "db-1" v1_sample = Ok (1, h')
          ∧ V1.GetContext 3 h' (Some 2) = Ok (Some c)
          ∧ c !! "host" = Some "db-1"
          ∧ ∀ k c0, k ≠ "host" → V1.GetContext 3 v1_sample (Some 2) = Ok (Some c0) →
                    c !! k = c0 !! k.
Proof.
  apply (v1_WithContext_read_back v1_sample (Some 2) [2; 1; 0] 1 "host" "db-1" 3).
  - apply (walk_chain V1.obj_Unwrap 3). reflexivity.
  - reflexivity.
  - simpl. lia.
Defined.

(** ** Stores built by calls *)



(** ** [Wrap] and [Wrapf] at the edges *)

(** X12.  [Wrap] never returns nil, not even for a nil error: the result
    is a fresh error, distinct from every error held before.  For a nil
    [err] it renders as ["<message>: %!w(<nil>)"] and unwraps to nothing,
    so a caller that wraps unconditionally turns "no error" into an
    error. *)
Theorem v1_Wrap_never_nil (h : V1.heap) (err : error) (message : string) :
  in_store h err = true →
  ∃ (w : loc) h', V1.Wrap err message h = Ok (Some (addr w), h')
          ∧ h !! w = None ∧ is_Some (h' !! w)
          ∧ (err = None →
             V1.Error h' w = Ok (message +:+ ": %!w(<nil>)")
             ∧ chain V1.obj_Unwrap h' (Some w) [w]).
Proof.
  intros Hin. destruct err as [[e|]|]; [|done|].
  - simpl in Hin. apply bool_decide_eq_true in Hin.
    destruct (lookup_lt_is_Some_2 h e Hin) as [o Ho].
    assert (∃ t, V1.Error h e = Ok t) as [t Ht].
    { unfold V1.Error. rewrite Ho. destruct o; by eexists. }
    eexists _, _. split.
    + unfold V1.Wrap, V1.Errorf_s_w, mbind, go_mbind, go_bind, reading.
      rewrite Ht. reflexivity.
    + split; [by apply lookup_ge_None_2|].
      split; [rewrite alloc_lookup; by eexists|done].
  - eexists _, _. split; [reflexivity|].
    split; [by apply lookup_ge_None_2|].
    split; [rewrite alloc_lookup; by eexists|]. intros _. split.
    + unfold V1.Error. by rewrite alloc_lookup.
    + eapply chain_cons; [apply alloc_lookup|]. constructor.
Qed.

Lemma v1_Wrap_never_nil_witness :
  ∃ (w : loc) h', V1.Wrap None "saving user" v1_sample = Ok (Some (addr w), h')
          ∧ v1_sample !! w = None
          ∧ V1.Error h' w = Ok "saving user: %!w(<nil>)".
Proof.
  destruct (v1_Wrap_never_nil v1_sample None "saving user")
    as (w & h' & Hrun & Hfresh & _ & Hnil); [reflexivity|].
  exists w, h'. split; [exact Hrun|]. split; [exact Hfresh|].
  by destruct (Hnil eq_refl).
Defined.

(** X13.  With a format free of percent signs and no operands [Wrapf] is
    [Wrap]: the format is the message. *)
Theorem v1_Wrapf_plain_is_Wrap (h : V1.heap) (err : error) (format : string) :
  plain format = true →
  V1.Wrapf err format [] h = V1.Wrap err format h.
Proof.
  intros Hplain. unfold V1.Wrapf. by rewrite (Sprintf_plain_only format Hplain).
Qed.

Lemma v1_Wrapf_plain_is_Wrap_witness :
  V1.Wrapf (Some 3) "failed to read configuration" [] v1_sample
  = V1.Wrap (Some 3) "failed to read configuration" v1_sample.
Proof.
  apply (v1_Wrapf_plain_is_Wrap v1_sample (Some 3) "failed to read configuration").
  reflexivity.
Defined.

(** ** The kind names of the root package *)

(** X14.  [ErrorType.String] gives the five declared kinds five different
    names, and ["UnknownError"] to every other integer and to no declared
    kind. *)
Theorem root_ErrorType_String_names :
  (∀ a b : Root.ErrorType,
     (0 ≤ a ≤ 4)%Z → (0 ≤ b ≤ 4)%Z →
     Root.ErrorType_String a = Root.ErrorType_String b → a = b)
  ∧ (∀ et : Root.ErrorType,
       Root.ErrorType_String et = "UnknownError" ↔ (et < 0 ∨ 4 < et)%Z).
Proof.
  assert (∀ a : Z, (0 ≤ a ≤ 4)%Z → a = 0%Z ∨ a = 1%Z ∨ a = 2%Z ∨ a = 3%Z ∨ a = 4%Z)
    as Hcases by (intros; lia).
  split.
  - intros a b Ha Hb.
    destruct (Hcases a Ha) as [->|[->|[->|[->| ->]]]];
      destruct (Hcases b Hb) as [->|[->|[->|[->| ->]]]];
      vm_compute; intros Heq; first [reflexivity | discriminate Heq].
  - intros et. destruct (decide (0 ≤ et ≤ 4)%Z) as [Hin|Hout].
    + destruct (Hcases et Hin) as [->|[->|[->|[->| ->]]]];
        (split; [vm_compute; intros Heq; discriminate Heq|lia]).
    + split; [lia|]. intros _. unfold Root.ErrorType_String,
        Root.ValidationError, Root.NotFoundError, Root.PermissionError,
        Root.InternalError, Root.ExternalError.
      by rewrite !bool_decide_eq_false_2 by lia.
Qed.

Lemma root_ErrorType_String_names_witness :
  Root.ErrorType_String (-1)%Z = "UnknownError"
  ∧ (Root.ErrorType_String Root.NotFoundError
     = Root.ErrorType_String Root.NotFoundError →
     Root.NotFoundError = Root.NotFoundError).
Proof.
  destruct root_ErrorType_String_names as [Hinj Hunknown]. split.
  - apply Hunknown. lia.
  - apply Hinj; unfold Root.NotFoundError; lia.
Defined.

(** ** The context of the root package *)

(** X15.  What [WithContext(key, value)] stores, [GetContext(key)] finds,
    with the flag set, also when the value is nil; every other key reads
    as before, and a key never written reads as nil with the flag
    cleared. *)
Theorem root_context_round_trip (h : Root.heap) (me : loc)
    (m : Root.ManagedError) (c : gmap string any) (key : string) (value : any) :
  h !! me = Some (Root.Managed m) → Root.Context m = Some c →
  ∃ h', Root.WithContext me key value h = Ok (me, h')
        ∧ Root.GetContext h' me key = Ok (value, true)
        ∧ (∀ k, k ≠ key → Root.GetContext h' me k = Root.GetContext h me k)
        ∧ (∀ k, c !! k = None → Root.GetContext h me k = Ok (AnyNil, false)).
Proof.
  intros He Hc.
  destruct (root_WithContext_ok h me m c key value He Hc) as [Hrun Hlook].
  eexists. split; [exact Hrun|]. unfold Root.GetContext.
  rewrite Hlook, He, Hc. simpl. split; [|split].
  - by rewrite lookup_insert_eq.
  - intros k Hk. by rewrite lookup_insert_ne.
  - by intros k ->.
Qed.

Lemma root_context_round_trip_witness :
  ∃ h', Root.WithContext 1 "attempt" AnyNil root_sample = Ok (1, h')
        ∧ Root.GetContext h' 1 "attempt" = Ok (AnyNil, true)
        ∧ Root.GetContext root_sample 1 "attempt" = Ok (AnyNil, false).
Proof.
  destruct (root_context_round_trip root_sample 1 root_sample_api
              (<["userId" := AnyInt 123]> ∅) "attempt" AnyNil)
    as (h' & Hrun & Hget & _ & Hmissing); [reflexivity|reflexivity|].
  exists h'. split; [exact Hrun|]. split; [exact Hget|].
  apply Hmissing. reflexivity.
Defined.

(** X16.  On a managed error of the root package [WithContext] panics
    exactly when the context map is nil, as in a struct literal; it
    succeeds on every initialised context.  [GetContext] does not mind a
    nil map: every key reads as absent. *)
Theorem root_WithContext_panics_iff_nil (h : Root.heap) (me : loc)
    (m : Root.ManagedError) (key : string) (value : any) :
  h !! me = Some (Root.Managed m) →
  (Root.WithContext me key value h = Panic "assignment to entry in nil map"
   ↔ Root.Context m = None)
  ∧ (is_Some (Root.Context m) →
     ∃ h', Root.WithContext me key value h = Ok (me, h'))
  ∧ (Root.Context m = None →
     ∀ k, Root.GetContext h me k = Ok (AnyNil, false)).
Proof.
  intros He. unfold Root.WithContext, Root.GetContext. rewrite He.
  destruct (Root.Context m) as [c0|]; split; try split; try done.
  intros _. by eexists.
Qed.

Lemma root_WithContext_panics_iff_nil_witness :
  Root.WithContext 0 "k" (AnyString "v")
    [Root.Managed {| Root.Type_ := Root.InternalError; Root.Message := "m";
                     Root.Cause := None; Root.Context := None |}]
  = Panic "assignment to entry in nil map".
Proof.
  apply (root_WithContext_panics_iff_nil
           [Root.Managed {| Root.Type_ := Root.InternalError; Root.Message := "m";
                            Root.Cause := None; Root.Context := None |}]
           0 _ "k" (AnyString "v") eq_refl).
  reflexivity.
Defined.

(** ** [Wrap] of the root package *)

(** X17.  [Wrap(err, kind, message)] of the root package keeps [err] as
    it is given: [Unwrap] returns it, nil included, and [IsType] compares
    with [kind] alone, never with the kind of [err]; both still hold
    after any chain of [WithContext] calls.  [New] unwraps to nil. *)
Theorem root_Wrap_round_trip (h : Root.heap) (err : error)
    (errorType : Root.ErrorType) (message : string)
    (kvs : list (string * any)) :
  (∃ (e : loc) h', (e ← Root.Wrap err errorType message; Root.fluent e kvs) h = Ok (e, h')
           ∧ Root.Unwrap h' e = Ok err
           ∧ ∀ k, Root.IsType h' e k = Ok (bool_decide (errorType = k)))
  ∧ (∃ (e : loc) h', (e ← Root.New errorType message; Root.fluent e kvs) h = Ok (e, h')
             ∧ Root.Unwrap h' e = Ok None).
Proof.
  split.
  - set (m0 := {| Root.Type_ := errorType; Root.Message := message;
                  Root.Cause := err; Root.Context := Some ∅ |}).
    destruct (root_fluent_ok kvs _ _ m0 (alloc_lookup h (Root.Managed m0)))
      as (h' & m & Hfl & He & _ & Hcause & _ & Htype); [by eexists|].
    exists (length h), h'. split; [exact Hfl|].
    unfold Root.Unwrap, Root.IsType. rewrite He, Hcause, Htype. done.
  - set (m0 := {| Root.Type_ := errorType; Root.Message := message;
                  Root.Cause := None; Root.Context := Some ∅ |}).
    destruct (root_fluent_ok kvs _ _ m0 (alloc_lookup h (Root.Managed m0)))
      as (h' & m & Hfl & He & _ & Hcause & _); [by eexists|].
    exists (length h), h'. split; [exact Hfl|].
    unfold Root.Unwrap. rewrite He, Hcause. done.
Qed.

(** ** The rendering of the root package follows the chain *)

Lemma root_Error_with_cause (h : Root.heap) (e c : loc) (m : Root.ManagedError)
    (fuel : nat) :
  heap_ordered Root.obj_Unwrap h → h !! e = Some (Root.Managed m) →
  Root.Cause m = Some (addr c) → length h ≤ fuel →
  ∃ text, Root.Error fuel h c = Ok text
          ∧ Root.Error fuel h e
            = Ok ("[" +:+ Root.ErrorType_String (Root.Type_ m) +:+ "] "
                  +:+ Root.Message m +:+ ": " +:+ text).
Proof.
  intros Hord He Hcause Hfuel.
  pose proof (lookup_lt_Some _ _ _ He) as Hlen.
  pose proof (Hord e _ c He Hcause) as Hc.
  destruct fuel as [|fuel]; [lia|].
  destruct (root_Error_total h Hord fuel c) as [text Htext]; [lia|lia|].
  exists text. split.
  - apply (root_Error_mono h fuel c text Htext). lia.
  - simpl. by rewrite He, Hcause, Htext.
Qed.

(** What a rendering starts with, by the kind of object rendered. *)
Lemma root_Error_head (h : Root.heap) (x : loc) (o : Root.obj) (fuel : nat)
    (text : string) :
  h !! x = Some o → Root.Error fuel h x = Ok text →
  match o with
  | Root.errorString s => text = s
  | Root.wrapError msg _ => text = msg
  | Root.Managed m => ∃ rest, text = root_headline m +:+ rest
  end.
Proof.
  intros Hx Htext. destruct fuel as [|fuel]; [done|].
  simpl in Htext. rewrite Hx in Htext.
  destruct o as [s|msg err|m]; [congruence|congruence|].
  destruct (Root.Cause m) as [[c|]|].
  - destruct (Root.Error fuel h c) as [t| | |]; try done.
    injection Htext as <-. exists (": " +:+ t). unfold root_headline.
    by repeat (rewrite !append_assoc; simpl).
  - injection Htext as <-. exists ": <nil>". unfold root_headline.
    by repeat (rewrite !append_assoc; simpl).
  - injection Htext as <-. exists "". unfold root_headline.
    by rewrite append_empty_r.
Qed.

(** Through managed errors the rendering is the headlines on the way,
    then the rendering of what they lead to. *)
Lemma root_Error_prefix (h : Root.heap) (x : loc) (pre post : list loc)
    (fuel : nat) :
  heap_ordered Root.obj_Unwrap h → length h ≤ fuel →
  forallb (root_is_managed h) pre = true →
  ∀ e : loc, chain Root.obj_Unwrap h (Some (addr e)) (pre ++ x :: post) →
    ∃ text, Root.Error fuel h x = Ok text
            ∧ Root.Error fuel h e = Ok (root_prefix h pre +:+ text).
Proof.
  intros Hord Hfuel.
  induction pre as [|p pre IH]; intros Hpre e Hch; simpl in Hch.
  - inversion Hch as [|l o ls Hl Hrest]; subst.
    destruct (root_Error_total h Hord fuel x) as [text Htext].
    { pose proof (lookup_lt_Some _ _ _ Hl). lia. }
    { by eapply lookup_lt_Some. }
    by exists text.
  - inversion Hch as [|l o ls Hl Hrest]; subst.
    simpl in Hpre. apply andb_true_iff in Hpre as [Hp Hpre].
    unfold root_is_managed in Hp. rewrite Hl in Hp.
    destruct o as [s|msg err|m]; try discriminate. simpl in Hrest.
    destruct (Root.Cause m) as [[c|]|] eqn:Hcause;
      [|by inversion Hrest|inversion Hrest as [Hnil|]; by destruct pre].
    destruct (IH Hpre c Hrest) as (text & Htext & Htopc).
    destruct (root_Error_with_cause h p c m fuel Hord Hl Hcause Hfuel)
      as (t & Ht & Hp').
    rewrite Htopc in Ht. injection Ht as <-.
    exists text. split; [done|]. rewrite Hp'. f_equal.
    simpl. rewrite Hl. unfold root_headline.
    by repeat (rewrite !append_assoc; simpl).
Qed.

Lemma root_prefix_member (h : Root.heap) (pre : list loc) (p : loc)
    (m : Root.ManagedError) :
  p ∈ pre → h !! p = Some (Root.Managed m) →
  ∃ a b, root_prefix h pre = a +:+ (root_headline m +:+ ": ") +:+ b.
Proof.
  intros Hp Hm. induction pre as [|q pre IH]; [by apply elem_of_nil in Hp|].
  apply elem_of_cons in Hp as [<-|Hp].
  - exists "", (root_prefix h pre). simpl. by rewrite Hm.
  - destruct (IH Hp) as (a & b & Heq). cbn [root_prefix]. rewrite Heq.
    match goal with
    | |- ∃ _ _, ?first +:+ _ = _ => exists (first +:+ a), b
    end.
    by rewrite (append_assoc _ a).
Qed.

(** X18.  The rendering of a managed error of the root package goes all
    the way down.  Let the chain of [e] pass through the managed errors
    [pre] and then reach [x].  The rendering of [e] is, for each error of
    [pre] in order, its headline ["[<kind name>] <message>"] and [": "],
    followed by the rendering of [x]; so every tag and message on the way
    appears in it, and it ends with the rendering of [x].  That rendering
    is the text of [x] when [x] is opaque, and starts with the headline of
    [x] when [x] is a managed error. *)
Theorem root_Error_renders_chain (h : Root.heap) (e x : loc)
    (pre post : list loc) (fuel : nat) :
  heap_ordered Root.obj_Unwrap h →
  chain Root.obj_Unwrap h (Some e) (pre ++ x :: post) →
  forallb (root_is_managed h) pre = true → length h ≤ fuel →
  ∃ top text, Root.Error fuel h e = Ok top
              ∧ Root.Error fuel h x = Ok text
              ∧ ends_with top text
              ∧ top = root_prefix h pre +:+ text
              ∧ (∀ p m, p ∈ pre → h !! p = Some (Root.Managed m) →
                        contains top (root_headline m +:+ ": ")
                        ∧ contains top (Root.Message m)
                        ∧ contains top ("[" +:+ Root.ErrorType_String (Root.Type_ m)
                                        +:+ "]"))
              ∧ match h !! x with
                | Some (Root.errorString s) => text = s
                | Some (Root.wrapError msg _) => text = msg
                | Some (Root.Managed m) => ∃ rest, text = root_headline m +:+ rest
                | None => False
                end.
Proof.
  intros Hord Hch Hpre Hfuel.
  destruct (root_Error_prefix h x pre post fuel Hord Hfuel Hpre e Hch)
    as (text & Htext & Htop).
  exists (root_prefix h pre +:+ text), text.
  split; [done|]. split; [done|]. split; [by eexists|]. split; [done|]. split.
  - intros p m Hp Hm.
    destruct (root_prefix_member h pre p m Hp Hm) as (a & b & ->).
    split; [|split].
    + exists a, (b +:+ text). by repeat (rewrite !append_assoc; simpl).
    + exists (a +:+ "[" +:+ Root.ErrorType_String (Root.Type_ m) +:+ "] "),
        (": " +:+ b +:+ text).
      unfold root_headline. by repeat (rewrite !append_assoc; simpl).
    + exists a, (" " +:+ Root.Message m +:+ ": " +:+ b +:+ text).
      unfold root_headline. by repeat (rewrite !append_assoc; simpl).
  - destruct (h !! x) as [o|] eqn:Hx.
    + by apply (root_Error_head h x o fuel text Hx).
    + unfold Root.Error in Htext. destruct fuel; [done|]. by rewrite Hx in Htext.
Qed.

Lemma root_Error_renders_chain_witness :
  ∃ top text, Root.Error 2 root_sample 1 = Ok top
              ∧ Root.Error 2 root_sample 0 = Ok text
              ∧ top = "[ExternalError] failed to connect to API: " +:+ text
              ∧ text = "connection timeout".
Proof.
  destruct (root_Error_renders_chain root_sample 1 0 [1] [] 2)
    as (top & text & Htop & Htext & _ & Heq & _ & Hx).
  - apply heap_wf_ordered, check_wf_sound. reflexivity.
  - apply (walk_chain Root.obj_Unwrap 2). reflexivity.
  - reflexivity.
  - simpl. lia.
  - exists top, text. split; [exact Htop|]. split; [exact Htext|].
    split; [exact Heq|exact Hx].
Defined.

(** ** What [WithContext] of the root package leaves alone *)

Lemma root_Error_write (h : Root.heap) (me : loc) (m m' : Root.ManagedError) :
  h !! me = Some (Root.Managed m) →
  Root.Type_ m' = Root.Type_ m → Root.Message m' = Root.Message m →
  Root.Cause m' = Root.Cause m →
  ∀ fuel l, Root.Error fuel (<[me := Root.Managed m']> h) l = Root.Error fuel h l.
Proof.
  intros He Htype Hmsg Hcause fuel.
  induction fuel as [|fuel IH]; intros l; simpl; [done|].
  destruct (decide (me = l)) as [<-|Hne].
  - rewrite list_lookup_insert_eq by (by eapply lookup_lt_Some).
    rewrite He, Htype, Hmsg, Hcause.
    destruct (Root.Cause m) as [[c|]|]; [|done|done]. by rewrite IH.
  - rewrite list_lookup_insert_ne by done.
    destruct (h !! l) as [[s|msg err|m0]|]; try done.
    destruct (Root.Cause m0) as [[c|]|]; [|done|done]. by rewrite IH.
Qed.

(** X19.  A successful [WithContext] of the root package returns its
    receiver and changes nothing but that receiver's context: every other
    object is untouched, and [Error], [Unwrap] and [IsType] answer as
    before for every error of the store. *)
Theorem root_WithContext_frame (h h' : Root.heap) (me me' : loc)
    (key : string) (value : any) :
  Root.WithContext me key value h = Ok (me', h') →
  me' = me
  ∧ (∀ l, l ≠ me → h' !! l = h !! l)
  ∧ (∀ fuel l, Root.Error fuel h' l = Root.Error fuel h l)
  ∧ (∀ l, Root.Unwrap h' l = Root.Unwrap h l)
  ∧ (∀ l k, Root.IsType h' l k = Root.IsType h l k).
Proof.
  unfold Root.WithContext. intros Hrun.
  destruct (h !! me) as [[s|msg err|m]|] eqn:He; try discriminate.
  destruct (Root.Context m) as [c|]; [|discriminate].
  injection Hrun as <- <-.
  assert (me < length h) as Hlen by (by eapply lookup_lt_Some).
  split; [done|]. split; [|split; [|split]].
  - intros l Hl. by rewrite list_lookup_insert_ne.
  - by apply (root_Error_write h me m).
  - intros l. unfold Root.Unwrap. destruct (decide (me = l)) as [<-|Hne].
    + by rewrite list_lookup_insert_eq, He.
    + by rewrite list_lookup_insert_ne.
  - intros l k. unfold Root.IsType. destruct (decide (me = l)) as [<-|Hne].
    + by rewrite list_lookup_insert_eq, He.
    + by rewrite list_lookup_insert_ne.
Qed.

Lemma root_WithContext_frame_witness :
  ∃ h', Root.WithContext 1 "attempt" (AnyInt 2) root_sample = Ok (1, h')
        ∧ ∀ fuel l, Root.Error fuel h' l = Root.Error fuel root_sample l.
Proof.
  eexists. split; [reflexivity|].
  by destruct (root_WithContext_frame root_sample _ 1 1 "attempt" (AnyInt 2)
                 eq_refl) as (_ & _ & Herror & _).
Defined.

(** ** The helpers of the example test *)

Lemma length_append (a b : string) :
  String.length (a +:+ b) = String.length a + String.length b.
Proof. induction a as [|x a IH]; simpl; [done|]. by rewrite IH. Qed.

Lemma substring_prefix (sub post : string) :
  String.substring 0 (String.length sub) (sub +:+ post) = sub.
Proof.
  induction sub as [|x sub IH]; simpl; [by destruct post|]. by rewrite IH.
Qed.

Lemma substring_skip (pre rest : string) (k : nat) :
  String.substring (String.length pre) k (pre +:+ rest) = String.substring 0 k rest.
Proof. induction pre as [|x pre IH]; simpl; [done|]. apply IH. Qed.

Lemma substring_head (s : string) (k : nat) :
  k ≤ String.length s → ∃ post, s = String.substring 0 k s +:+ post.
Proof.
  revert k. induction s as [|x s IH]; intros k Hk; simpl in Hk.
  - assert (k = 0) as -> by lia. by exists "".
  - destruct k as [|k]; simpl.
    + by exists (String x s).
    + destruct (IH k) as [post Hpost]; [lia|]. exists post. by rewrite <- Hpost.
Qed.

Lemma substring_inside (s : string) (j k : nat) :
  j + k ≤ String.length s →
  ∃ pre post, s = pre +:+ String.substring j k s +:+ post.
Proof.
  revert j. induction s as [|x s IH]; intros j Hjk; simpl in Hjk.
  - assert (j = 0) as -> by lia. assert (k = 0) as -> by lia. by exists "", "".
  - destruct j as [|j].
    + destruct (substring_head (String x s) k) as [post Hpost]; [simpl; lia|].
      by exists "", post.
    + destruct (IH j) as (pre & post & Hs); [lia|].
      exists (String x pre), post. simpl. by rewrite <- Hs.
Qed.

(** An occurrence at a position, and an occurrence as such. *)
Lemma occurs_at_iff_contains (s substr : string) :
  (∃ j, j + String.length substr ≤ String.length s
        ∧ String.substring j (String.length substr) s = substr)
  ↔ contains s substr.
Proof.
  split.
  - intros (j & Hj & Hsub).
    destruct (substring_inside s j (String.length substr) Hj) as (pre & post & Hs).
    exists pre, post. by rewrite Hsub in Hs.
  - intros (pre & post & ->). exists (String.length pre). split.
    + rewrite !length_append. lia.
    + by rewrite substring_skip, substring_prefix.
Qed.

(** The loop, entered at [i] with fuel for the positions left: it does
    not slice out of range, and it finds the occurrences from [i] on. *)
Lemma example_contains_loop (s substr : string) (fuel i : nat) :
  String.length s < fuel + i →
  ∃ b, ExampleTest.contains_loop fuel s substr (Z.of_nat i) = Ok b
       ∧ (b = true ↔
          ∃ j, i ≤ j ∧ j + String.length substr ≤ String.length s
               ∧ String.substring j (String.length substr) s = substr).
Proof.
  revert i. induction fuel as [|fuel IH]; intros i Hfuel.
  - simpl. rewrite bool_decide_eq_false_2 by lia. exists false.
    split; [done|]. split; [done|]. intros (j & Hij & Hj & _). lia.
  - cbn [ExampleTest.contains_loop]. case_bool_decide as Hguard.
    + unfold ExampleTest.slice. rewrite bool_decide_eq_true_2 by lia.
      replace (Z.to_nat (Z.of_nat i + Z.of_nat (String.length substr) - Z.of_nat i))
        with (String.length substr) by lia.
      rewrite Nat2Z.id. simpl. case_bool_decide as Hpiece.
      * exists true. split; [done|]. split; [|done]. intros _.
        exists i. split; [done|]. split; [lia|done].
      * replace (Z.of_nat i + 1)%Z with (Z.of_nat (S i)) by lia.
        destruct (IH (S i)) as (b & Hb & Hiff); [lia|].
        exists b. split; [done|]. rewrite Hiff. split.
        -- intros (j & Hij & Hj & Hsub). exists j. split; [lia|done].
        -- intros (j & Hij & Hj & Hsub). exists j.
           destruct (decide (j = i)) as [->|Hne]; [done|].
           split; [lia|done].
    + exists false. split; [done|]. split; [done|].
      intros (j & Hij & Hj & _). lia.
Qed.

Lemma example_contains_returns (s substr : string) :
  ∃ b, ExampleTest.contains s substr = Ok b ∧ (b = true ↔ contains s substr).
Proof.
  destruct (example_contains_loop s substr (S (String.length s)) 0)
    as (b & Hb & Hiff); [lia|].
  exists b. split; [exact Hb|].
  rewrite Hiff, <- occurs_at_iff_contains. split.
  - intros (j & _ & Hj & Hsub). by exists j.
  - intros (j & Hj & Hsub). exists j. split; [lia|done].
Qed.

(** X20.  The helper [contains] of the example test never slices out of
    range and never runs out of iterations; it answers whether [substr]
    occurs in [s].  So the empty string occurs in every string, and a
    string does not contain a longer one. *)
Theorem example_contains_correct (s substr : string) :
  ∃ b, ExampleTest.contains s substr = Ok b
       ∧ (b = true ↔ contains s substr)
       ∧ (substr = "" → b = true)
       ∧ (String.length s < String.length substr → b = false).
Proof.
  destruct (example_contains_returns s substr) as (b & Hb & Hspec).
  exists b. split; [exact Hb|].
  split; [exact Hspec|]. split.
  - intros ->. apply Hspec. by exists "", s.
  - intros Hlen. destruct b; [|done]. exfalso.
    destruct (proj1 Hspec eq_refl) as (pre & post & Hs).
    rewrite Hs, !length_append in Hlen. lia.
Qed.

Lemma example_contains_correct_witness :
  ExampleTest.contains "a" "abc" = Ok false.
Proof.
  destruct (example_contains_correct "a" "abc") as (b & Hb & _ & _ & Hshort).
  rewrite Hb. f_equal. apply Hshort. simpl. lia.
Defined.

Lemma v1_through_fresh (h : V1.heap) (m : V1.ManagedError)
    (f : V1.ManagedError → V1.ManagedError) :
  V1.through (length h) f (h ++ [V1.Managed m])
  = Ok (length h, h ++ [V1.Managed (f m)]).
Proof.
  unfold V1.through. rewrite alloc_lookup. f_equal. f_equal.
  rewrite insert_app_r_alt by done. by rewrite Nat.sub_diag.
Qed.

(** X21.  [registerUser] of the example test returns nil exactly when the
    email contains an at sign and the password has at least 8 bytes, and
    then allocates nothing.  Otherwise it returns a fresh validation
    error with status code 400, not retryable, with code [invalid_email]
    if the at sign is missing (whatever the password) and [weak_password]
    if only the password is short.  As [saveToDatabase] returns nil, the
    [SystemError] branch is never taken. *)
Theorem example_registerUser (h : V1.heap) (email password : string) :
  ∃ r h', ExampleTest.registerUser email password h = Ok (r, h')
          ∧ (r = None ↔ contains email "@" ∧ 8 ≤ String.length password)
          ∧ (r = None → h' = h)
          ∧ ∀ e : loc, r = Some (addr e) →
              h !! e = None
              ∧ V1.IsType 1 h' r V1.ValidationError = Ok true
              ∧ V1.IsRetryable 1 h' r = Ok false
              ∧ ∃ m, h' !! e = Some (V1.Managed m)
                     ∧ V1.StatusCode m = 400%Z
                     ∧ V1.Cause m = None
                     ∧ (contains email "@" → V1.Code m = "weak_password")
                     ∧ (¬ contains email "@" → V1.Code m = "invalid_email").
Proof.
  destruct (example_contains_returns email "@") as (b & Hb & Hspec).
  unfold ExampleTest.registerUser, mbind, go_mbind, go_bind, reading.
  rewrite Hb. destruct b; simpl.
  - assert (contains email "@") as Hat by (by apply Hspec).
    case_bool_decide as Hpw.
    + unfold V1.NewError, alloc, V1.WithDetails, V1.WithStatusCode.
      rewrite !v1_through_fresh. eexists _, _. split; [reflexivity|].
      split; [split; [done|lia]|]. split; [done|].
      intros e [= <-]. split; [by apply lookup_ge_None_2|].
      unfold V1.IsType, V1.IsRetryable, V1.found_field. simpl.
      rewrite !alloc_lookup. simpl. rewrite !alloc_lookup.
      split; [done|]. split; [done|]. eexists. split; [done|].
      simpl. repeat split; try done.
    + unfold ExampleTest.saveToDatabase. simpl. exists None, h.
      split; [done|]. split; [split; [intros _; split; [done|lia]|done]|].
      split; [done|]. by intros e.
  - assert (¬ contains email "@") as Hat.
    { intros Hc. by apply Hspec in Hc. }
    unfold V1.NewError, alloc, V1.WithDetails, V1.WithContext, V1.WithStatusCode.
    rewrite !v1_through_fresh. eexists _, _. split; [reflexivity|].
    split; [split; [done|tauto]|]. split; [done|].
    intros e [= <-]. split; [by apply lookup_ge_None_2|].
    unfold V1.IsType, V1.IsRetryable, V1.found_field. simpl.
    rewrite !alloc_lookup. simpl. rewrite !alloc_lookup.
    split; [done|]. split; [done|]. eexists. split; [done|].
    simpl. repeat split; try done.
Qed.

Lemma example_registerUser_witness :
  ∃ r h', ExampleTest.registerUser "invalid-email" "password123" [] = Ok (r, h')
          ∧ r = Some (addr 0)
          ∧ V1.Error h' 0
            = Ok "[validation:invalid_email] Invalid email format: Must contain @ symbol".
Proof.
  destruct (example_registerUser [] "invalid-email" "password123")
    as (r & h' & Hrun & _).
  exists r, h'. split; [exact Hrun|].
  vm_compute in Hrun. injection Hrun as <- <-. split; reflexivity.
Defined.

(** ** [IsType] and the nil [*ManagedError] *)

(** X22.  [IsType] shares the walk of [IsRetryable] and [GetContext], and
    with it the read through the pointer found.  In a store where causes
    precede their holders, for every error the caller can hold and fuel
    for the store, it answers whether the first [*ManagedError] object
    visited has the kind asked for; without one it answers [false] when
    the walk ends in nil and panics when the walk ends in the nil
    [*ManagedError].  So it panics exactly when a nil [*ManagedError] is
    reached before any managed error. *)
Theorem v1_IsType_nil_pointer (h : V1.heap) (err : error) (fuel : nat)
    (errType : V1.ErrorType) :
  heap_ordered V1.obj_Unwrap h → holds h err = true → length h ≤ fuel →
  ∃ ls last,
    reaches V1.obj_Unwrap h err ls last
    ∧ V1.IsType fuel h err errType
      = match V1.first_managed h ls with
        | Some m => Ok (bool_decide (V1.Type_ m = errType))
        | None => match last with
                  | None => Ok false
                  | Some _ => Panic nil_dereference
                  end
        end
    ∧ (V1.IsType fuel h err errType = Panic nil_dereference
       ↔ V1.first_managed h ls = None ∧ last = Some nilManagedError).
Proof.
  intros Hord Hin Hfuel.
  destruct (reaches_exists V1.obj_Unwrap h err Hord Hin)
    as (ls & last & Hr & Hlen).
  exists ls, last. split; [done|].
  assert (V1.IsType fuel h err errType
          = match V1.first_managed h ls with
            | Some m => Ok (bool_decide (V1.Type_ m = errType))
            | None => match last with
                      | None => Ok false
                      | Some _ => Panic nil_dereference
                      end
            end) as HIs.
  { unfold V1.IsType.
    apply (v1_As_field_reaches h err ls last fuel
             (λ m, bool_decide (V1.Type_ m = errType)) false); [done|lia]. }
  split; [done|]. rewrite HIs.
  destruct (reaches_last V1.obj_Unwrap h err ls last Hr) as [-> | ->];
    destruct (V1.first_managed h ls); split; try done; by intros [? ?].
Qed.

Lemma v1_IsType_nil_pointer_witness :
  V1.IsType 5 v1_sample (Some nilManagedError) V1.SystemError
  = Panic nil_dereference.
Proof.
  destruct (v1_IsType_nil_pointer v1_sample (Some nilManagedError) 5
              V1.SystemError) as (ls & last & Hr & _ & Hpanic).
  - apply heap_wf_ordered, check_wf_sound. reflexivity.
  - reflexivity.
  - simpl. lia.
  - apply Hpanic.
    destruct (reaches_functional V1.obj_Unwrap v1_sample (Some nilManagedError)
                ls [] last (Some nilManagedError) Hr) as [-> ->].
    + constructor.
    + split; reflexivity.
Defined.
